(** * Orbit geometry and libration points of the solar-system scene service

    A shallow embedding of [src/app/scene/scene.service.ts].

    The service computes with JavaScript numbers.  Its arithmetic is written
    once, over an interface [JsNumber] of the operations the source uses, and
    read in two ways:

    - [Ideal]: exact real arithmetic ([R]); the geometric laws of the orbit
      engine and of the libration solver are proved here, rounding left out;
    - [Binary64]: IEEE-754 double precision, the numbers JavaScript really
      has, for what rounding does to the sample grid of an orbit path.

    Celestial bodies are JavaScript objects shared by reference ([orbitBody]
    points to another body, the constructor mutates bodies in place), so
    bodies live in a heap indexed by references and the functions that follow
    a reference take the heap.  [None] stands for the [TypeError] thrown when
    a property of [undefined] or [null] is read. *)

From Stdlib Require Import Floats.
From Stdlib Require Uint63.
From Stdlib Require Import ZArith List Reals Lra Lia String.
From stdpp Require Import base option list sorting strings gmap.

(** ** The numbers of the source *)

Declare Scope js_scope.
Delimit Scope js_scope with js.

Class JsNumber (N : Type) : Type := {
  ofZ : Z -> N;                (* an integer literal *)
  add : N -> N -> N;
  sub : N -> N -> N;
  mul : N -> N -> N;
  div : N -> N -> N;
  neg : N -> N;
  pow : N -> Z -> N;           (* [x ** n], [n] an integer literal *)
  Math_sqrt : N -> N;
  Math_cbrt : N -> N;
  Math_cos : N -> N;
  Math_sin : N -> N;
  Math_PI : N;
  (* [Math.ceil] of a finite number; [None] for NaN and the infinities *)
  Math_ceil : N -> option Z;
  ltb : N -> N -> bool         (* [a < b] *)
}.

Notation "a + b" := (add a b) : js_scope.
Notation "a - b" := (sub a b) : js_scope.
Notation "a * b" := (mul a b) : js_scope.
Notation "a / b" := (div a b) : js_scope.
Notation "- a" := (neg a) : js_scope.
Notation "a ** n" := (pow a n%Z) (at level 30, right associativity) : js_scope.
Notation "# z" := (ofZ z%Z) (at level 9, format "# z") : js_scope.

(** [x | 0]: the 32-bit signed integer of an integer value. *)
Definition toInt32 (z : Z) : Z := ((z + 2 ^ 31) mod 2 ^ 32 - 2 ^ 31)%Z.

(** ** Data model ([scene.model.ts]) *)

Abbreviation loc := nat (only parsing).

Record Point (N : Type) : Type := mkPoint { x : N; y : N }.
Arguments mkPoint {N}.
Arguments x {N}.
Arguments y {N}.

Record Ellipse (N : Type) : Type := mkEllipse { cx : N; cy : N; rx : N; ry : N }.
Arguments mkEllipse {N}.
Arguments cx {N}.
Arguments cy {N}.
Arguments rx {N}.
Arguments ry {N}.

Record OrbitPoint (N : Type) : Type :=
  mkOrbitPoint { op_trueAnomaly : N; op_x : N; op_y : N }.
Arguments mkOrbitPoint {N}.
Arguments op_trueAnomaly {N}.
Arguments op_x {N}.
Arguments op_y {N}.

Inductive LagrangePointType : Set := L1 | L2 | L3 | L4 | L5.

Record LagrangePoint (N : Type) : Type :=
  mkLagrangePoint { lp_x : N; lp_y : N; lp_type : LagrangePointType }.
Arguments mkLagrangePoint {N}.
Arguments lp_x {N}.
Arguments lp_y {N}.
Arguments lp_type {N}.

Definition LagrangePoints (N : Type) : Type :=
  (LagrangePoint N * LagrangePoint N * LagrangePoint N
   * LagrangePoint N * LagrangePoint N)%type.

Record CelestialBody (N : Type) : Type := mkBody {
  id : string;
  mass : N;
  semiMajorAxis : N;
  eccentricity : N;
  meanAnomaly : N;
  trueAnomaly : N;
  orbitBody : option loc;               (* reference, [null] for the primary *)
  position : option (Point N);          (* [undefined] until computed *)
  lagrangePoints : option (LagrangePoints N)
}.
Arguments mkBody {N}.
Arguments id {N}.
Arguments mass {N}.
Arguments semiMajorAxis {N}.
Arguments eccentricity {N}.
Arguments meanAnomaly {N}.
Arguments trueAnomaly {N}.
Arguments orbitBody {N}.
Arguments position {N}.
Arguments lagrangePoints {N}.

(** Field assignments [body.f = v]. *)
Definition set_trueAnomaly {N} (v : N) (b : CelestialBody N) : CelestialBody N :=
  mkBody (id b) (mass b) (semiMajorAxis b) (eccentricity b) (meanAnomaly b)
         v (orbitBody b) (position b) (lagrangePoints b).

Definition set_position {N} (v : Point N) (b : CelestialBody N) : CelestialBody N :=
  mkBody (id b) (mass b) (semiMajorAxis b) (eccentricity b) (meanAnomaly b)
         (trueAnomaly b) (orbitBody b) (Some v) (lagrangePoints b).

Definition set_lagrangePoints {N} (v : LagrangePoints N) (b : CelestialBody N)
  : CelestialBody N :=
  mkBody (id b) (mass b) (semiMajorAxis b) (eccentricity b) (meanAnomaly b)
         (trueAnomaly b) (orbitBody b) (position b) (Some v).

(** ** d3-array's [range] and [Array.prototype.sort] *)

Section Library.
Context {N : Type} {num : JsNumber N}.
Local Open Scope js_scope.

(** [d3.range(start, stop, step)]:
    [n = Math.max(0, Math.ceil((stop - start) / step)) | 0], then
    [range[i] = start + i * step] for [i < n].  NaN and the infinities
    become 0 under [| 0]; a negative length makes [new Array(n)] throw. *)
Definition d3_range_length (start stop step : N) : Z :=
  match Math_ceil ((stop - start) / step) with
  | Some c => toInt32 (Z.max 0 c)
  | None => 0%Z
  end.

Definition d3_range (start stop step : N) : option (list N) :=
  let n := d3_range_length start stop step in
  if (n <? 0)%Z then None
  else Some (map (fun i : nat => start + #(Z.of_nat i) * step)
                 (seq 0 (Z.to_nat n))).

(** [Array.prototype.sort(compare)] is a stable sort; with a comparator
    that is a total preorder its result is determined, and is the one of
    this insertion sort: an element moves behind exactly those it compares
    greater than. *)
Fixpoint sort_insert {A} (compare : A -> A -> N) (a : A) (l : list A) : list A :=
  match l with
  | [] => [a]
  | b :: l' => if ltb #0 (compare a b) then b :: sort_insert compare a l'
               else a :: l
  end.

Definition Array_sort {A} (compare : A -> A -> N) (l : list A) : list A :=
  foldr (sort_insert compare) [] l.
End Library.

(** ** The scene service *)

Section SceneService.
Context {N : Type} {num : JsNumber N}.
Local Open Scope js_scope.

Abbreviation heap := (gmap loc (CelestialBody N)).

Definition KM_TO_PX : N := #100000.

(** Modelled from the spec: [DEG_TO_RAD] is declared in [scene.model.ts],
    which is not among the sources; the spec calls it the fixed
    degrees-to-radians conversion factor. *)
Definition DEG_TO_RAD : N := Math_PI / #180.

Definition getDistanceToFocusPoint (body : CelestialBody N) (trueAnomaly : N) : N :=
  (semiMajorAxis body * (#1 - (eccentricity body) ** 2))
  / (#1 + (eccentricity body * Math_cos (trueAnomaly * DEG_TO_RAD))).

(** [body.orbitBody.position] *)
Definition orbitBody_position (h : heap) (body : CelestialBody N) : option (Point N) :=
  ob ← orbitBody body; o ← h !! ob; position o.

Definition getPositionForTrueAnomaly (h : heap) (b : loc) (trueAnomaly : N)
  : option (Point N) :=
  body ← h !! b;
  let d := getDistanceToFocusPoint body trueAnomaly in
  let yKm := - d * Math_sin (trueAnomaly * DEG_TO_RAD) in
  let xKm := d * Math_cos (trueAnomaly * DEG_TO_RAD) in
  p ← orbitBody_position h body;
  Some {| x := (xKm / KM_TO_PX) + x p;
          y := (yKm / KM_TO_PX) + y p |}.

Definition getOrbitEllipse (h : heap) (b : loc) : option (Ellipse N) :=
  body ← h !! b;
  p ← orbitBody_position h body;
  Some {| cx := x p - (eccentricity body * semiMajorAxis body / KM_TO_PX);
          cy := y p;
          rx := semiMajorAxis body / KM_TO_PX;
          ry := Math_sqrt (((semiMajorAxis body) ** 2)
                           * (#1 - ((eccentricity body) ** 2))) / KM_TO_PX |}.

Definition getOrbitPath (h : heap) (b : loc) (nbPoints : N)
  : option (list (OrbitPoint N)) :=
  angles ← d3_range #0 #360 (#360 / nbPoints);
  result ← mapM (fun trueAnomaly =>
                   point ← getPositionForTrueAnomaly h b trueAnomaly;
                   Some {| op_trueAnomaly := trueAnomaly;
                           op_x := x point; op_y := y point |}) angles;
  body ← h !! b;
  p ← position body;
  let result := result ++ [ {| op_trueAnomaly := trueAnomaly body;
                               op_x := x p; op_y := y p |} ] in
  Some (Array_sort (fun p1 p2 => op_trueAnomaly p1 - op_trueAnomaly p2) result).

(** The catalog is data of [data/SolarSystem.data.ts] and
    [data/Earth.data.ts], not among the sources: its bodies are taken as
    parameters. *)
Variable SOLAR_SYSTEM : list loc.
Variables SUN EARTH : loc.

Definition getEarthLagrangePoints (h : heap) : option (LagrangePoints N) :=
  earth ← h !! EARTH;
  sun ← h !! SUN;
  pos ← position earth;
  let distance := Math_sqrt (((x pos) ** 2) + ((y pos) ** 2)) in
  let r := distance * Math_cbrt (mass earth / (#3 * mass sun)) in
  let l1 := {| lp_x := (x pos * (distance - r)) / distance;
               lp_y := (y pos * (distance - r)) / distance;
               lp_type := L1 |} in
  let l2 := {| lp_x := (x pos * (distance + r)) / distance;
               lp_y := (y pos * (distance + r)) / distance;
               lp_type := L2 |} in
  let r := distance * ((#7 * mass earth) / (#12 * mass sun)) in
  let l3 := {| lp_x := (- (x pos * (distance - r))) / distance;
               lp_y := (- (y pos * (distance - r))) / distance;
               lp_type := L3 |} in
  let l4 := {| lp_x := (x pos * Math_cos (#60 * DEG_TO_RAD))
                       + (y pos * Math_sin (#60 * DEG_TO_RAD));
               lp_y := (- (x pos * Math_sin (#60 * DEG_TO_RAD)))
                       + (y pos * Math_cos (#60 * DEG_TO_RAD));
               lp_type := L4 |} in
  let l5 := {| lp_x := (x pos * Math_cos (- #60 * DEG_TO_RAD))
                       + (y pos * Math_sin (- #60 * DEG_TO_RAD));
               lp_y := (- (x pos * Math_sin (- #60 * DEG_TO_RAD)))
                       + (y pos * Math_cos (- #60 * DEG_TO_RAD));
               lp_type := L5 |} in
  Some (l1, l2, l3, l4, l5).

(** The body of the constructor's [forEach]. *)
Definition initBody (h : heap) (b : loc) : option heap :=
  body ← h !! b;
  let body := set_trueAnomaly (meanAnomaly body) body in
  let h := <[ b := body ]> h in
  p ← getPositionForTrueAnomaly h b (trueAnomaly body);
  Some (<[ b := set_position p body ]> h).

Fixpoint forEach (f : heap -> loc -> option heap) (l : list loc) (h : heap)
  : option heap :=
  match l with
  | [] => Some h
  | b :: l' => h' ← f h b; forEach f l' h'
  end.

(** [body.id !== 'sun'] *)
Definition notSun (h : heap) (b : loc) : bool :=
  match h !! b with
  | Some body => negb (String.eqb (id body) "sun")
  | None => true
  end.

(** [body.orbitBody] of the body at [b]. *)
Definition parentOf (h : heap) (b : loc) : option loc :=
  body ← h !! b; orbitBody body.

(** Primary-first order of a list of bodies: the body a listed body orbits
    is neither that body itself nor listed after it. *)
Fixpoint primaryFirst (h : heap) (l : list loc) : bool :=
  match l with
  | [] => true
  | b :: l' => match parentOf h b with
               | Some p => bool_decide (p ∉ b :: l')
               | None => true
               end && primaryFirst h l'
  end.

(** A list of bodies is ready for the constructor when each body in turn
    orbits a body that has a position: one of [placed], or one met before. *)
Fixpoint ready (h : heap) (placed l : list loc) : bool :=
  match l with
  | [] => true
  | b :: l' => match parentOf h b with
               | Some p => bool_decide (p ∈ placed) && ready h (b :: placed) l'
               | None => false
               end
  end.

(** The cached position of the body at [c] is the position at its true
    anomaly. *)
Definition settled (h : heap) (c : loc) : Prop :=
  exists body p, h !! c = Some body /\ position body = Some p
    /\ getPositionForTrueAnomaly h c (trueAnomaly body) = Some p.

Definition SceneService_constructor (h : heap) : option heap :=
  h ← forEach initBody (List.filter (notSun h) SOLAR_SYSTEM) h;
  points ← getEarthLagrangePoints h;
  earth ← h !! EARTH;
  Some (<[ EARTH := set_lagrangePoints points earth ]> h).
End SceneService.

(** ** The body dialog ([celestial-body-dialog.component.ts]) *)

Section Dialog.
Context {N : Type}.

(** [CELESTIAL_BODY_TYPE] is declared in [scene.model.ts], not among the
    sources: the three members the dialog names are parameters.  The record
    of a body above has the fields the geometry reads; [body.type] is read
    from a table beside the heap. *)
Context {BodyType : Type} `{EqDecision BodyType}.
Variables PLANET DWARF_PLANET SATELLITE : BodyType.
Variable type : loc -> BodyType.

Definition getImagePath (h : gmap loc (CelestialBody N)) (b : loc) (format : string)
  : option string :=
  body ← h !! b;
  let path := "assets/celestial_bodies/"%string in
  path ← (if bool_decide (type b = PLANET \/ type b = DWARF_PLANET)
          then Some (path +:+ (id body +:+ "/"))
          else if bool_decide (type b = SATELLITE)
          then ob ← orbitBody body; o ← h !! ob; Some (path +:+ (id o +:+ "/"))
          else Some path);
  Some (((path +:+ id body) +:+ "_small.") +:+ format).
End Dialog.

(** ** Exact real arithmetic *)

Module Ideal.

(** [Math.cbrt]: the real cube root, odd in its argument. *)
Definition cbrt (r : R) : R :=
  match total_order_T r 0 with
  | inleft (left _) => (- exp (ln (- r) / 3))%R
  | inleft (right _) => 0%R
  | inright _ => exp (ln r / 3)
  end.

#[export] Instance number : JsNumber R := {|
  ofZ := IZR;
  add := Rplus;
  sub := Rminus;
  mul := Rmult;
  div := Rdiv;
  neg := Ropp;
  pow := powerRZ;
  Math_sqrt := sqrt;
  Math_cbrt := cbrt;
  Math_cos := cos;
  Math_sin := sin;
  Math_PI := PI;
  Math_ceil := fun r => Some (Zceil r);
  ltb := fun a b => if Rlt_dec a b then true else false
|}.

End Ideal.

(** ** IEEE-754 double precision *)

Module Binary64.

(** The integer [Math.ceil] returns, read off the sign, mantissa and
    exponent of a finite double. *)
Definition ceil (f : float) : option Z :=
  match Prim2SF f with
  | S754_zero _ => Some 0%Z
  | S754_finite s m e =>
      let k := match e with
               | Z0 => Z.pos m
               | Zpos p => (Z.pos m * 2 ^ Z.pos p)%Z
               | Zneg p => if s then (Z.pos m / 2 ^ Z.pos p)%Z
                           else (- ((- Z.pos m) / 2 ^ Z.pos p))%Z
               end in
      Some (if s then (- k)%Z else k)
  | S754_infinity _ | S754_nan => None
  end.

(** An integer literal; exact below [2 ^ 53]. *)
Definition of_int (z : Z) : float :=
  if (z <? 0)%Z then PrimFloat.opp (PrimFloat.of_uint63 (Uint63.of_Z (- z)))
  else PrimFloat.of_uint63 (Uint63.of_Z z).

Section Number.
(** The double-precision results of [**], [Math.cbrt], [Math.cos] and
    [Math.sin] are left to the engine by the language; any will do. *)
Variable fpow : float -> Z -> float.
Variables fcbrt fcos fsin : float -> float.

Definition number : JsNumber float := {|
  ofZ := of_int;
  add := PrimFloat.add;
  sub := PrimFloat.sub;
  mul := PrimFloat.mul;
  div := PrimFloat.div;
  neg := PrimFloat.opp;
  pow := fpow;
  Math_sqrt := PrimFloat.sqrt;
  Math_cbrt := fcbrt;
  Math_cos := fcos;
  Math_sin := fsin;
  Math_PI := 0x1.921fb54442d18p+1%float;
  Math_ceil := ceil;
  ltb := PrimFloat.ltb
|}.
End Number.

End Binary64.

(** ** A small catalog *)

Module Example.
Import Ideal.
Local Open Scope R_scope.

Definition sun : CelestialBody R :=
  mkBody "sun" 1.989e30 0 0 0 0 None (Some (mkPoint 0 0)) None.

Definition earth : CelestialBody R :=
  mkBody "earth" 5.972e24 149598023 (167086 / 10000000) 358617e-3 0
         (Some 0%nat) None None.

Definition moon : CelestialBody R :=
  mkBody "moon" 7.342e22 384399 (549 / 10000) 135 0 (Some 1%nat) None None.

Definition bodies : gmap loc (CelestialBody R) :=
  <[ 2%nat := moon ]> (<[ 1%nat := earth ]> (<[ 0%nat := sun ]> ∅)).

Definition SOLAR_SYSTEM : list loc := [0%nat; 1%nat; 2%nat].

(** The same bodies with the earth placed at [(3, -4)]. *)
Definition placed : gmap loc (CelestialBody R) :=
  <[ 1%nat := set_position (mkPoint 3 (-4)) earth ]> bodies.

(** The same bodies with the earth at distance 5 and true anomaly 30. *)
Definition polar : gmap loc (CelestialBody R) :=
  <[ 1%nat := set_position (mkPoint (5 * cos (30 * PI / 180))
                                    (- (5 * sin (30 * PI / 180)))) earth ]> bodies.

(** Kinds of bodies for the dialog, and a satellite that orbits nothing. *)
Inductive kind : Set := star | planet | dwarf_planet | satellite.

#[export] Instance kind_eq_dec : EqDecision kind.
Proof. solve_decision. Defined.

Definition kindOf (b : loc) : kind :=
  match b with
  | 0%nat => star
  | 1%nat => planet
  | _ => satellite
  end.

Definition lost : CelestialBody R :=
  mkBody "lost" 1 1 0 0 0 None None None.

Definition dialog : gmap loc (CelestialBody R) := <[ 3%nat := lost ]> bodies.

End Example.

(** The order of an orbit path. *)
Definition byTrueAnomaly (p1 p2 : OrbitPoint R) : Prop :=
  (op_trueAnomaly p1 <= op_trueAnomaly p2)%R.

(** A sun and an earth in double precision: semi-major axis 149598023 km,
    eccentricity 17/1024, true anomaly 358.625 degrees. *)
Module Example64.

Definition sun : CelestialBody float :=
  mkBody "sun" 0x1.91ace3d05aef4p+100%float 0%float 0%float 0%float 0%float None
         (Some (mkPoint 0%float 0%float)) None.

Definition earth : CelestialBody float :=
  mkBody "earth" 0x1.3c27b13272fb6p+82%float 149598023%float 0.0166015625%float
         358.625%float 358.625%float (Some 0%nat)
         (Some (mkPoint 1495.5%float 36.25%float)) None.

Definition bodies : gmap loc (CelestialBody float) :=
  <[ 1%nat := earth ]> (<[ 0%nat := sun ]> ∅).

(** The same earth on a nearly circular orbit, of eccentricity [1e-9]. *)
Definition nearly_circular : CelestialBody float :=
  mkBody "earth" 0x1.3c27b13272fb6p+82%float 149598023%float
         0x1.12e0be826d695p-30%float 358.625%float 358.625%float (Some 0%nat)
         None None.

Definition nearly_circular_bodies : gmap loc (CelestialBody float) :=
  <[ 1%nat := nearly_circular ]> (<[ 0%nat := sun ]> ∅).

(** A stand-in engine to run examples with: [x ** n] as [x * x], the cube
    root as the identity, cosine and sine by the first terms of their
    series. *)
Definition engine : JsNumber float :=
  Binary64.number (fun x _ => PrimFloat.mul x x) (fun x => x)
                  (fun x => PrimFloat.sub 1 (PrimFloat.div (PrimFloat.mul x x) 2))
                  (fun x => x).

End Example64.

(** Two states of a body with the same catalog data. *)
Definition sameElements {N : Type} (b1 b2 : CelestialBody N) : Prop :=
  id b1 = id b2 /\ mass b1 = mass b2 /\ semiMajorAxis b1 = semiMajorAxis b2
  /\ eccentricity b1 = eccentricity b2 /\ meanAnomaly b1 = meanAnomaly b2
  /\ orbitBody b1 = orbitBody b2.

(** [getOrbitPath(body)], the number of points left to its default. *)
Definition getOrbitPath_default {N : Type} {num : JsNumber N}
    (h : gmap loc (CelestialBody N)) (b : loc) : option (list (OrbitPoint N)) :=
  getOrbitPath h b (ofZ 360).

(** * Unfolding the service over any arithmetic *)

Section Unfold.
Context {N : Type} {num : JsNumber N}.
Local Open Scope js_scope.

Implicit Types (body : CelestialBody N) (h : gmap loc (CelestialBody N)).

Lemma getPositionForTrueAnomaly_unfold h (b : loc) body (p : Point N) (t : N) :
  h !! b = Some body -> orbitBody_position h body = Some p ->
  getPositionForTrueAnomaly h b t
  = Some {| x := (getDistanceToFocusPoint body t * Math_cos (t * DEG_TO_RAD)
                  / KM_TO_PX) + x p;
            y := (- getDistanceToFocusPoint body t * Math_sin (t * DEG_TO_RAD)
                  / KM_TO_PX) + y p |}.
Proof.
  intros Hb Hp. unfold getPositionForTrueAnomaly.
  rewrite Hb; simpl. rewrite Hp; reflexivity.
Qed.

Lemma getOrbitEllipse_unfold h (b : loc) body (p : Point N) :
  h !! b = Some body -> orbitBody_position h body = Some p ->
  getOrbitEllipse h b
  = Some {| cx := x p - (eccentricity body * semiMajorAxis body / KM_TO_PX);
            cy := y p;
            rx := semiMajorAxis body / KM_TO_PX;
            ry := Math_sqrt (((semiMajorAxis body) ** 2)
                             * (#1 - ((eccentricity body) ** 2))) / KM_TO_PX |}.
Proof.
  intros Hb Hp. unfold getOrbitEllipse.
  rewrite Hb; simpl. rewrite Hp; reflexivity.
Qed.

End Unfold.

(** * The orbit geometry engine in exact arithmetic *)

(** Reading the interface at the reals. *)
Ltac ideal := cbn [ofZ add sub mul div neg pow Math_sqrt Math_cbrt Math_cos
                   Math_sin Math_PI Math_ceil ltb Ideal.number] in *.

Section OrbitGeometry.
Import Ideal.
Local Open Scope R_scope.

Implicit Types (body : CelestialBody R) (h : gmap loc (CelestialBody R)).

Lemma powerRZ_2 (r : R) : powerRZ r 2 = r ^ 2.
Proof. reflexivity. Qed.

Lemma DEG_TO_RAD_radians (t : R) : t * DEG_TO_RAD = t * PI / 180.
Proof. unfold DEG_TO_RAD; simpl; lra. Qed.

Lemma getDistanceToFocusPoint_eq body (t : R) :
  getDistanceToFocusPoint body t
  = semiMajorAxis body * (1 - eccentricity body ^ 2)
    / (1 + eccentricity body * cos (t * PI / 180)).
Proof.
  unfold getDistanceToFocusPoint. rewrite <- DEG_TO_RAD_radians. simpl. reflexivity.
Qed.

Lemma denominator_bounds (e c : R) :
  0 <= e < 1 -> -1 <= c <= 1 -> 1 - e <= 1 + e * c <= 1 + e.
Proof. intros He Hc. nra. Qed.

(** C5: the distance to the focus is the polar form of the conic,
    [a (1 - e^2) / (1 + e cos t)] with [t] the true anomaly in radians; at 0
    degrees it is the periapsis distance [a (1 - e)] and at 180 degrees the
    apoapsis distance [a (1 + e)]. *)
Theorem getDistanceToFocusPoint_conic body :
  0 < semiMajorAxis body -> 0 <= eccentricity body < 1 ->
  (forall t : R,
      getDistanceToFocusPoint body t
      = semiMajorAxis body * (1 - eccentricity body ^ 2)
        / (1 + eccentricity body * cos (t * PI / 180)))
  /\ getDistanceToFocusPoint body 0 = semiMajorAxis body * (1 - eccentricity body)
  /\ getDistanceToFocusPoint body 180 = semiMajorAxis body * (1 + eccentricity body).
Proof.
  intros Ha He. split; [apply getDistanceToFocusPoint_eq|].
  rewrite !getDistanceToFocusPoint_eq. split.
  - replace (0 * PI / 180) with 0 by lra. rewrite cos_0. field. lra.
  - replace (180 * PI / 180) with PI by lra. rewrite cos_PI. field. lra.
Qed.

Lemma getDistanceToFocusPoint_conic_witness :
  0 < semiMajorAxis Example.earth /\ 0 <= eccentricity Example.earth < 1
  /\ getDistanceToFocusPoint Example.earth 180
     = semiMajorAxis Example.earth * (1 + eccentricity Example.earth).
Proof.
  assert (Ha : 0 < semiMajorAxis Example.earth) by (simpl; lra).
  assert (He : 0 <= eccentricity Example.earth < 1) by (simpl; lra).
  split; [exact Ha|]. split; [exact He|].
  exact (proj2 (proj2 (getDistanceToFocusPoint_conic Example.earth Ha He))).
Defined.

(** C9: for an eccentricity in [0, 1) the denominator [1 + e cos t] lies
    between [1 - e > 0] and [1 + e], so the division is by a positive number,
    and for a positive semi-major axis the distance is positive and bounded by
    the periapsis and apoapsis distances. *)
Theorem getDistanceToFocusPoint_positive body (t : R) :
  0 < semiMajorAxis body -> 0 <= eccentricity body < 1 ->
  let den := 1 + eccentricity body * cos (t * DEG_TO_RAD) in
  0 < 1 - eccentricity body <= den
  /\ den <= 1 + eccentricity body
  /\ getDistanceToFocusPoint body t * den
     = semiMajorAxis body * (1 - eccentricity body ^ 2)
  /\ 0 < semiMajorAxis body * (1 - eccentricity body)
     <= getDistanceToFocusPoint body t
  /\ getDistanceToFocusPoint body t <= semiMajorAxis body * (1 + eccentricity body).
Proof.
  intros Ha He den.
  pose proof (COS_bound (t * DEG_TO_RAD)) as Hc.
  pose proof (denominator_bounds _ _ He Hc) as Hd. fold den in Hd.
  assert (Hpos : 0 < den) by lra.
  assert (Hr : getDistanceToFocusPoint body t
               = semiMajorAxis body * (1 - eccentricity body ^ 2) / den).
  { unfold getDistanceToFocusPoint, den. simpl. reflexivity. }
  assert (Hm : getDistanceToFocusPoint body t * den
               = semiMajorAxis body * (1 - eccentricity body ^ 2)).
  { rewrite Hr. field. lra. }
  split; [lra|]. split; [lra|]. split; [exact Hm|].
  generalize dependent (getDistanceToFocusPoint body t). intros r _ Hm.
  assert (Hp : 0 < semiMajorAxis body * (1 - eccentricity body)).
  { apply Rmult_lt_0_compat; lra. }
  assert (Hq : 0 < semiMajorAxis body * (1 + eccentricity body)).
  { apply Rmult_lt_0_compat; lra. }
  assert (H1 : 0 <= (semiMajorAxis body * (1 - eccentricity body))
                    * (1 + eccentricity body - den)).
  { apply Rmult_le_pos; lra. }
  assert (H2 : 0 <= (semiMajorAxis body * (1 + eccentricity body))
                    * (den - (1 - eccentricity body))).
  { apply Rmult_le_pos; lra. }
  split; [split; [exact Hp|]|].
  - apply Rmult_le_reg_r with den; [exact Hpos|]. nra.
  - apply Rmult_le_reg_r with den; [exact Hpos|]. nra.
Qed.

Lemma getDistanceToFocusPoint_positive_witness :
  0 < semiMajorAxis Example.earth /\ 0 <= eccentricity Example.earth < 1
  /\ 0 < getDistanceToFocusPoint Example.earth 90.
Proof.
  assert (Ha : 0 < semiMajorAxis Example.earth) by (simpl; lra).
  assert (He : 0 <= eccentricity Example.earth < 1) by (simpl; lra).
  split; [exact Ha|]. split; [exact He|].
  destruct (getDistanceToFocusPoint_positive Example.earth 90 Ha He)
    as (_ & _ & _ & [Hlow Hle] & _).
  eapply Rlt_le_trans; [exact Hlow | exact Hle].
Defined.

(** C6: when the orbited body's position is known, the position at a true
    anomaly [t] is the polar offset [(d cos t, - d sin t)], [t] in radians
    and [d] the distance to the focus, divided by the scale and added to the
    orbited body's position; the y offset carries the minus sign of a
    coordinate system whose y axis points down. *)
Theorem getPositionForTrueAnomaly_offset h (b : loc) body (p : Point R) (t : R) :
  h !! b = Some body -> orbitBody_position h body = Some p ->
  getPositionForTrueAnomaly h b t
  = Some {| x := getDistanceToFocusPoint body t * cos (t * PI / 180) / 100000 + x p;
            y := - (getDistanceToFocusPoint body t * sin (t * PI / 180)) / 100000
                 + y p |}.
Proof.
  intros Hb Hp. rewrite (getPositionForTrueAnomaly_unfold _ _ _ _ _ Hb Hp).
  unfold KM_TO_PX. ideal. rewrite !DEG_TO_RAD_radians.
  do 2 f_equal. lra.
Qed.

Lemma getPositionForTrueAnomaly_offset_witness :
  Example.bodies !! 1%nat = Some Example.earth
  /\ orbitBody_position Example.bodies Example.earth = Some (mkPoint 0 0)
  /\ getPositionForTrueAnomaly Example.bodies 1%nat 0
     = Some {| x := getDistanceToFocusPoint Example.earth 0 * cos (0 * PI / 180)
                    / 100000 + 0;
               y := - (getDistanceToFocusPoint Example.earth 0 * sin (0 * PI / 180))
                    / 100000 + 0 |}.
Proof.
  assert (Hb : Example.bodies !! 1%nat = Some Example.earth) by reflexivity.
  assert (Hp : orbitBody_position Example.bodies Example.earth = Some (mkPoint 0 0))
    by reflexivity.
  split; [exact Hb|]. split; [exact Hp|].
  exact (getPositionForTrueAnomaly_offset _ _ _ _ 0 Hb Hp).
Defined.

Lemma sqrt_one_minus_sq (e : R) :
  0 <= e < 1 -> 0 < sqrt (1 - e ^ 2) <= 1 /\ (sqrt (1 - e ^ 2) = 1 <-> e = 0).
Proof.
  intros He. assert (H0 : 0 < 1 - e ^ 2) by nra.
  split; [split|split].
  - apply sqrt_lt_R0; exact H0.
  - rewrite <- sqrt_1 at 2. apply sqrt_le_1_alt. nra.
  - intros Hs. assert (Hq : sqrt (1 - e ^ 2) * sqrt (1 - e ^ 2) = 1 - e ^ 2)
      by (apply sqrt_sqrt; lra).
    rewrite Hs in Hq. nra.
  - intros ->. replace (1 - 0 ^ 2) with 1 by lra. apply sqrt_1.
Qed.

Lemma getOrbitEllipse_eq h (b : loc) body (p : Point R) :
  h !! b = Some body -> orbitBody_position h body = Some p ->
  0 < semiMajorAxis body -> 0 <= eccentricity body < 1 ->
  getOrbitEllipse h b
  = Some {| cx := x p - semiMajorAxis body * eccentricity body / 100000;
            cy := y p;
            rx := semiMajorAxis body / 100000;
            ry := semiMajorAxis body * sqrt (1 - eccentricity body ^ 2) / 100000 |}.
Proof.
  intros Hb Hp Ha He. rewrite (getOrbitEllipse_unfold _ _ _ _ Hb Hp).
  unfold KM_TO_PX. ideal. rewrite !powerRZ_2.
  rewrite sqrt_mult by nra.
  rewrite sqrt_pow2 by lra.
  f_equal. f_equal. lra.
Qed.

(** C7: the orbit's ellipse has radii [rx = a / scale] and
    [ry = a sqrt (1 - e^2) / scale], and its centre has the orbited body's y
    and the orbited body's x less the linear eccentricity [a e / scale], which
    puts the orbited body at the focus [cx + sqrt (rx^2 - ry^2)]; for [e = 0]
    it is the circle of radius [a / scale] centred on the orbited body. *)
Theorem getOrbitEllipse_conic h (b : loc) body (p : Point R) :
  h !! b = Some body -> orbitBody_position h body = Some p ->
  0 < semiMajorAxis body -> 0 <= eccentricity body < 1 ->
  exists el, getOrbitEllipse h b = Some el
    /\ rx el = semiMajorAxis body / 100000
    /\ ry el = semiMajorAxis body * sqrt (1 - eccentricity body ^ 2) / 100000
    /\ cy el = y p
    /\ cx el = x p - semiMajorAxis body * eccentricity body / 100000
    /\ cx el + sqrt (rx el ^ 2 - ry el ^ 2) = x p
    /\ (eccentricity body = 0 ->
        rx el = semiMajorAxis body / 100000
        /\ ry el = semiMajorAxis body / 100000
        /\ cx el = x p /\ cy el = y p).
Proof.
  intros Hb Hp Ha He. eexists. split; [apply getOrbitEllipse_eq; eassumption|].
  cbn [rx ry cx cy].
  destruct (sqrt_one_minus_sq _ He) as [[Hs0 Hs1] Hs].
  assert (Hq : sqrt (1 - eccentricity body ^ 2) * sqrt (1 - eccentricity body ^ 2)
               = 1 - eccentricity body ^ 2) by (apply sqrt_sqrt; nra).
  repeat split; try reflexivity.
  - replace ((semiMajorAxis body / 100000) ^ 2
             - (semiMajorAxis body * sqrt (1 - eccentricity body ^ 2) / 100000) ^ 2)
      with ((semiMajorAxis body * eccentricity body / 100000) ^ 2)
      by (field_simplify; rewrite ?Hq; nra).
    rewrite sqrt_pow2; [lra|].
    apply Rmult_le_pos; [apply Rmult_le_pos|]; lra.
  - rewrite (proj2 Hs H). lra.
  - rewrite H. lra.
Qed.

Lemma getOrbitEllipse_conic_witness :
  Example.bodies !! 1%nat = Some Example.earth
  /\ orbitBody_position Example.bodies Example.earth = Some (mkPoint 0 0)
  /\ 0 < semiMajorAxis Example.earth /\ 0 <= eccentricity Example.earth < 1
  /\ exists el, getOrbitEllipse Example.bodies 1%nat = Some el
       /\ rx el = semiMajorAxis Example.earth / 100000.
Proof.
  assert (Hb : Example.bodies !! 1%nat = Some Example.earth) by reflexivity.
  assert (Hp : orbitBody_position Example.bodies Example.earth = Some (mkPoint 0 0))
    by reflexivity.
  assert (Ha : 0 < semiMajorAxis Example.earth) by (simpl; lra).
  assert (He : 0 <= eccentricity Example.earth < 1) by (simpl; lra).
  repeat (split; [assumption|]).
  destruct (getOrbitEllipse_conic _ _ _ _ Hb Hp Ha He) as (el & Hel & Hrx & _).
  exists el. split; [exact Hel | exact Hrx].
Defined.

(** In exact arithmetic the radii of the orbit's ellipse satisfy
    [0 < ry <= rx], and [ry = rx] exactly when the eccentricity is 0.  The
    half "only when" is a fact of the reals: in double precision it fails
    ([getOrbitEllipse_radii_binary64] below). *)
Lemma getOrbitEllipse_radii_exact h (b : loc) body (p : Point R) :
  h !! b = Some body -> orbitBody_position h body = Some p ->
  0 < semiMajorAxis body -> 0 <= eccentricity body < 1 ->
  exists el, getOrbitEllipse h b = Some el
    /\ 0 < ry el <= rx el
    /\ (ry el = rx el <-> eccentricity body = 0).
Proof.
  intros Hb Hp Ha He. eexists. split; [apply getOrbitEllipse_eq; eassumption|].
  cbn [rx ry].
  destruct (sqrt_one_minus_sq _ He) as [[Hs0 Hs1] Hs].
  set (s := sqrt (1 - eccentricity body ^ 2)) in *.
  assert (H0 : 0 < semiMajorAxis body * s) by (apply Rmult_lt_0_compat; lra).
  split; [split|split].
  - lra.
  - assert (semiMajorAxis body * s <= semiMajorAxis body) by nra. lra.
  - intros Heq. apply Hs.
    assert (semiMajorAxis body * s = semiMajorAxis body) by lra. nra.
  - intros H. rewrite (proj2 Hs H). lra.
Qed.

(** C10, amended: the radii of the orbit's ellipse satisfy [0 < ry <= rx],
    and [ry = rx] when the eccentricity is 0. *)
Theorem getOrbitEllipse_radii h (b : loc) body (p : Point R) :
  h !! b = Some body -> orbitBody_position h body = Some p ->
  0 < semiMajorAxis body -> 0 <= eccentricity body < 1 ->
  exists el, getOrbitEllipse h b = Some el
    /\ 0 < ry el <= rx el
    /\ (eccentricity body = 0 -> ry el = rx el).
Proof.
  intros Hb Hp Ha He. eexists. split; [apply getOrbitEllipse_eq; eassumption|].
  cbn [rx ry].
  destruct (sqrt_one_minus_sq _ He) as [[Hs0 Hs1] Hs].
  assert (H0 : 0 < semiMajorAxis body * sqrt (1 - eccentricity body ^ 2))
    by (apply Rmult_lt_0_compat; lra).
  split; [split|].
  - lra.
  - assert (semiMajorAxis body * sqrt (1 - eccentricity body ^ 2)
            <= semiMajorAxis body) by nra. lra.
  - intros H. rewrite (proj2 Hs H). lra.
Qed.

Lemma getOrbitEllipse_radii_witness :
  Example.bodies !! 1%nat = Some Example.earth
  /\ orbitBody_position Example.bodies Example.earth = Some (mkPoint 0 0)
  /\ 0 < semiMajorAxis Example.earth /\ 0 <= eccentricity Example.earth < 1
  /\ exists el, getOrbitEllipse Example.bodies 1%nat = Some el
       /\ 0 < ry el <= rx el.
Proof.
  assert (Hb : Example.bodies !! 1%nat = Some Example.earth) by reflexivity.
  assert (Hp : orbitBody_position Example.bodies Example.earth = Some (mkPoint 0 0))
    by reflexivity.
  assert (Ha : 0 < semiMajorAxis Example.earth) by (simpl; lra).
  assert (He : 0 <= eccentricity Example.earth < 1) by (simpl; lra).
  repeat (split; [assumption|]).
  destruct (getOrbitEllipse_radii _ _ _ _ Hb Hp Ha He) as (el & Hel & Hr & _).
  exists el. split; [exact Hel | exact Hr].
Defined.

End OrbitGeometry.

(** * The libration solver in exact arithmetic *)

Lemma div_nonneg (a b : R) : (0 <= a -> 0 < b -> 0 <= a / b)%R.
Proof.
  intros Ha Hb. apply Rmult_le_pos; [exact Ha|].
  left. apply Rinv_0_lt_compat. exact Hb.
Qed.

Section Libration.
Import Ideal.
Local Open Scope R_scope.
Variables SUN EARTH : loc.

Implicit Types (h : gmap loc (CelestialBody R)) (pos : Point R).

Lemma getEarthLagrangePoints_eq h (earth sun : CelestialBody R) pos :
  h !! EARTH = Some earth -> h !! SUN = Some sun -> position earth = Some pos ->
  let d := sqrt (x pos ^ 2 + y pos ^ 2) in
  let r := d * cbrt (mass earth / (3 * mass sun)) in
  let r' := d * (7 * mass earth / (12 * mass sun)) in
  getEarthLagrangePoints SUN EARTH h
  = Some ({| lp_x := x pos * (d - r) / d; lp_y := y pos * (d - r) / d;
             lp_type := L1 |},
          {| lp_x := x pos * (d + r) / d; lp_y := y pos * (d + r) / d;
             lp_type := L2 |},
          {| lp_x := - (x pos * (d - r')) / d; lp_y := - (y pos * (d - r')) / d;
             lp_type := L3 |},
          {| lp_x := x pos * cos (60 * DEG_TO_RAD) + y pos * sin (60 * DEG_TO_RAD);
             lp_y := - (x pos * sin (60 * DEG_TO_RAD))
                     + y pos * cos (60 * DEG_TO_RAD);
             lp_type := L4 |},
          {| lp_x := x pos * cos (- 60 * DEG_TO_RAD)
                     + y pos * sin (- 60 * DEG_TO_RAD);
             lp_y := - (x pos * sin (- 60 * DEG_TO_RAD))
                     + y pos * cos (- 60 * DEG_TO_RAD);
             lp_type := L5 |}).
Proof.
  intros He Hs Hp d r r'. unfold getEarthLagrangePoints.
  rewrite He. cbn [mbind option_bind]. rewrite Hs. cbn [mbind option_bind].
  rewrite Hp. cbn [mbind option_bind]. reflexivity.
Qed.

(** [cbrt] is the real cube root. *)
Lemma cbrt_pos (r : R) : 0 < r -> cbrt r = exp (ln r / 3).
Proof.
  intros Hr. unfold cbrt. destruct (total_order_T r 0) as [[Hlt|Heq]|Hgt]; lra.
Qed.

Lemma exp_third_cube (r : R) : 0 < r -> exp (ln r / 3) ^ 3 = r.
Proof.
  intros Hr. simpl. rewrite Rmult_1_r, <- !exp_plus.
  replace (ln r / 3 + (ln r / 3 + ln r / 3)) with (ln r) by lra.
  apply exp_ln; exact Hr.
Qed.

Lemma cbrt_cube (r : R) : cbrt r ^ 3 = r.
Proof.
  unfold cbrt. destruct (total_order_T r 0) as [[Hlt|Heq]|Hgt].
  - replace ((- exp (ln (- r) / 3)) ^ 3) with (- (exp (ln (- r) / 3) ^ 3))
      by (simpl; lra).
    rewrite exp_third_cube; lra.
  - subst r. simpl. lra.
  - apply exp_third_cube; exact Hgt.
Qed.

Lemma cbrt_unit (r : R) : 0 <= r <= 1 -> 0 <= cbrt r <= 1.
Proof.
  intros [H0 H1]. destruct (Req_dec r 0) as [->|Hne].
  - unfold cbrt. destruct (total_order_T 0 0) as [[Hlt|Heq]|Hgt]; lra.
  - assert (Hr : 0 < r) by lra. rewrite (cbrt_pos _ Hr). split.
    + left. apply exp_pos.
    + rewrite <- exp_0. destruct (Req_dec r 1) as [->|Hne1].
      * rewrite ln_1. replace (0 / 3) with 0 by lra. lra.
      * left. apply exp_increasing.
        assert (ln r < 0) by (rewrite <- ln_1; apply ln_increasing; lra). lra.
Qed.

Lemma norm_scaled (px py k : R) :
  let d := sqrt (px ^ 2 + py ^ 2) in
  0 < d -> sqrt ((px * k / d) ^ 2 + (py * k / d) ^ 2) = Rabs k.
Proof.
  intros d Hd.
  assert (Hdd : d * d = px ^ 2 + py ^ 2).
  { apply sqrt_sqrt. nra. }
  replace ((px * k / d) ^ 2 + (py * k / d) ^ 2) with (Rsqr k).
  - apply sqrt_Rsqr_abs.
  - unfold Rsqr.
    replace ((px * k / d) ^ 2 + (py * k / d) ^ 2)
      with (k * k * (px ^ 2 + py ^ 2) / (d * d)) by (field; lra).
    rewrite <- Hdd. field. lra.
Qed.

Lemma norm_pos (px py : R) : (px, py) <> (0, 0) -> 0 < sqrt (px ^ 2 + py ^ 2).
Proof.
  intros Hne. apply sqrt_lt_R0.
  destruct (Req_dec px 0) as [->|Hx].
  - destruct (Req_dec py 0) as [->|Hy]; [congruence|]. nra.
  - nra.
Qed.

(** C4: with the sun at the origin and the earth at distance [d > 0], the
    collinear points lie on the line of the earth's position vector:
    L1 at [d - r] and L2 at [d + r] along its direction, with
    [r = d cbrt (m_earth / (3 m_sun))], and L3 at [d - r'] along the opposite
    direction, with [r' = d (7 m_earth) / (12 m_sun)]; each carries its type.
    These are their Euclidean distances to the origin as soon as the mass
    ratio keeps [d - r] and [d - r'] non-negative. *)
Theorem getEarthLagrangePoints_collinear h (earth sun : CelestialBody R) pos :
  h !! EARTH = Some earth -> h !! SUN = Some sun -> position earth = Some pos ->
  (x pos, y pos) <> (0, 0) ->
  let d := sqrt (x pos ^ 2 + y pos ^ 2) in
  let r := d * cbrt (mass earth / (3 * mass sun)) in
  let r' := d * (7 * mass earth / (12 * mass sun)) in
  exists l1 l2 l3 l4 l5,
    getEarthLagrangePoints SUN EARTH h = Some (l1, l2, l3, l4, l5)
    /\ l1 = {| lp_x := (d - r) * (x pos / d); lp_y := (d - r) * (y pos / d);
               lp_type := L1 |}
    /\ l2 = {| lp_x := (d + r) * (x pos / d); lp_y := (d + r) * (y pos / d);
               lp_type := L2 |}
    /\ l3 = {| lp_x := (d - r') * (- x pos / d); lp_y := (d - r') * (- y pos / d);
               lp_type := L3 |}
    /\ sqrt (lp_x l1 ^ 2 + lp_y l1 ^ 2) = Rabs (d - r)
    /\ sqrt (lp_x l2 ^ 2 + lp_y l2 ^ 2) = Rabs (d + r)
    /\ sqrt (lp_x l3 ^ 2 + lp_y l3 ^ 2) = Rabs (d - r')
    /\ (0 < mass sun -> 0 < mass earth -> 7 * mass earth <= 12 * mass sun ->
        sqrt (lp_x l1 ^ 2 + lp_y l1 ^ 2) = d - r
        /\ sqrt (lp_x l2 ^ 2 + lp_y l2 ^ 2) = d + r
        /\ sqrt (lp_x l3 ^ 2 + lp_y l3 ^ 2) = d - r').
Proof.
  intros He Hs Hp Hne d r r'.
  pose proof (norm_pos _ _ Hne) as Hd. fold d in Hd.
  do 5 eexists. split; [apply (getEarthLagrangePoints_eq _ _ _ _ He Hs Hp)|].
  fold d. fold r. fold r'. cbn [lp_x lp_y].
  assert (N1 : sqrt ((x pos * (d - r) / d) ^ 2 + (y pos * (d - r) / d) ^ 2)
               = Rabs (d - r)) by (apply norm_scaled; exact Hd).
  assert (N2 : sqrt ((x pos * (d + r) / d) ^ 2 + (y pos * (d + r) / d) ^ 2)
               = Rabs (d + r)) by (apply norm_scaled; exact Hd).
  assert (N3 : sqrt ((- (x pos * (d - r')) / d) ^ 2 + (- (y pos * (d - r')) / d) ^ 2)
               = Rabs (d - r')).
  { rewrite <- (norm_scaled (x pos) (y pos) (d - r') Hd). fold d.
    f_equal. field. lra. }
  split; [f_equal; field; lra|]. split; [f_equal; field; lra|].
  split; [f_equal; field; lra|].
  split; [exact N1|]. split; [exact N2|]. split; [exact N3|].
  intros Hms Hme Hratio. rewrite N1, N2, N3.
  assert (Hq : 0 <= mass earth / (3 * mass sun) <= 1).
  { split.
    - apply div_nonneg; lra.
    - apply Rmult_le_reg_r with (3 * mass sun); [lra|].
      field_simplify; lra. }
  pose proof (cbrt_unit _ Hq) as Hc.
  assert (Hq' : 0 <= 7 * mass earth / (12 * mass sun) <= 1).
  { split.
    - apply div_nonneg; lra.
    - apply Rmult_le_reg_r with (12 * mass sun); [lra|].
      field_simplify; lra. }
  assert (0 <= r <= d) by (unfold r; nra).
  assert (0 <= r' <= d) by (unfold r'; nra).
  rewrite !Rabs_pos_eq by lra. auto.
Qed.

(** Every point of the plane is a polar offset [(d cos t, - d sin t)] of the
    kind [getPositionForTrueAnomaly] produces around the origin. *)
Lemma polar_exists (px py : R) :
  exists d t : R,
    0 <= d /\ px = d * cos (t * PI / 180) /\ py = - (d * sin (t * PI / 180)).
Proof.
  pose proof PI_RGT_0 as Hpi.
  set (d := sqrt (px ^ 2 + py ^ 2)).
  assert (Hdd : d * d = px ^ 2 + py ^ 2) by (apply sqrt_sqrt; nra).
  assert (Hd0 : 0 <= d) by apply sqrt_pos.
  destruct (Req_dec d 0) as [Hz|Hnz].
  - exists 0, 0. rewrite Hz in Hdd.
    assert (px = 0) by nra. assert (py = 0) by nra. subst. lra.
  - assert (Hd : 0 < d) by lra.
    set (u := px / d).
    assert (Hpx : px = d * u) by (unfold u; field; lra).
    assert (Hu : -1 <= u <= 1).
    { assert (u * u <= 1); [|nra].
      apply Rmult_le_reg_r with (d * d); [nra|].
      replace (u * u * (d * d)) with (px ^ 2) by (rewrite Hpx at 1; ring).
      nra. }
    assert (Hsin : sin (acos u) = Rabs (py / d)).
    { rewrite sin_acos by exact Hu. rewrite <- sqrt_Rsqr_abs. f_equal.
      unfold Rsqr, u. field_simplify; [|lra|lra].
      replace (d ^ 2) with (px ^ 2 + py ^ 2) by (rewrite <- Hdd; ring).
      field. rewrite <- Hdd. nra. }
    pose proof (cos_acos u Hu) as Hcos.
    destruct (Rle_dec py 0) as [Hle|Hgt].
    + exists d, (acos u * 180 / PI). split; [exact Hd0|].
      replace (acos u * 180 / PI * PI / 180) with (acos u) by (field; lra).
      rewrite Hcos, Hsin. split; [exact Hpx|].
      rewrite Rabs_left1.
      * field; lra.
      * apply Rmult_le_reg_r with d; [exact Hd|].
        replace (py / d * d) with py by (field; lra). lra.
    + exists d, (- acos u * 180 / PI). split; [exact Hd0|].
      replace (- acos u * 180 / PI * PI / 180) with (- acos u) by (field; lra).
      rewrite cos_neg, sin_neg, Hcos, Hsin. split; [exact Hpx|].
      rewrite Rabs_pos_eq.
      * field; lra.
      * apply div_nonneg; lra.
Qed.

(** C3: L4 is the earth's position turned by +60 degrees about the origin,
    where the sun is, and L5 the same position turned by -60 degrees, angles
    counted as the true anomaly is: the earth at distance [d] and anomaly [t]
    has L4 at distance [d] and anomaly [t + 60], L5 at [t - 60]; each carries
    its type. *)
Theorem getEarthLagrangePoints_triangular h (earth sun : CelestialBody R) (d t : R) :
  h !! EARTH = Some earth -> h !! SUN = Some sun ->
  position earth = Some {| x := d * cos (t * PI / 180);
                           y := - (d * sin (t * PI / 180)) |} ->
  exists l1 l2 l3 l4 l5,
    getEarthLagrangePoints SUN EARTH h = Some (l1, l2, l3, l4, l5)
    /\ l4 = {| lp_x := d * cos ((t + 60) * PI / 180);
               lp_y := - (d * sin ((t + 60) * PI / 180));
               lp_type := L4 |}
    /\ l5 = {| lp_x := d * cos ((t - 60) * PI / 180);
               lp_y := - (d * sin ((t - 60) * PI / 180));
               lp_type := L5 |}.
Proof.
  intros He Hs Hp.
  do 5 eexists. split; [apply (getEarthLagrangePoints_eq _ _ _ _ He Hs Hp)|].
  cbn [x y]. rewrite !DEG_TO_RAD_radians.
  replace ((t + 60) * PI / 180) with (t * PI / 180 + 60 * PI / 180) by lra.
  replace ((t - 60) * PI / 180) with (t * PI / 180 - 60 * PI / 180) by lra.
  replace (- 60 * PI / 180) with (- (60 * PI / 180)) by lra.
  rewrite cos_plus, sin_plus, cos_minus, sin_minus, cos_neg, sin_neg.
  split; f_equal; ring.
Qed.

(** C8: with the sun at the origin, L4 and L5 are as far from it as the earth
    is. *)
Theorem getEarthLagrangePoints_equidistant h (earth sun : CelestialBody R) pos :
  h !! EARTH = Some earth -> h !! SUN = Some sun -> position earth = Some pos ->
  exists l1 l2 l3 l4 l5,
    getEarthLagrangePoints SUN EARTH h = Some (l1, l2, l3, l4, l5)
    /\ sqrt (lp_x l4 ^ 2 + lp_y l4 ^ 2) = sqrt (x pos ^ 2 + y pos ^ 2)
    /\ sqrt (lp_x l5 ^ 2 + lp_y l5 ^ 2) = sqrt (x pos ^ 2 + y pos ^ 2).
Proof.
  intros He Hs Hp.
  do 5 eexists. split; [apply (getEarthLagrangePoints_eq _ _ _ _ He Hs Hp)|].
  cbn [lp_x lp_y].
  assert (Hrot : forall a : R,
             (x pos * cos a + y pos * sin a) ^ 2
             + (- (x pos * sin a) + y pos * cos a) ^ 2
             = x pos ^ 2 + y pos ^ 2).
  { intros a. pose proof (sin2_cos2 a) as Hsc. unfold Rsqr in Hsc.
    replace ((x pos * cos a + y pos * sin a) ^ 2
             + (- (x pos * sin a) + y pos * cos a) ^ 2)
      with ((x pos ^ 2 + y pos ^ 2) * (sin a * sin a + cos a * cos a)) by ring.
    rewrite Hsc. ring. }
  rewrite !Hrot. split; reflexivity.
Qed.

End Libration.

Section LibrationExamples.
Import Ideal.
Local Open Scope R_scope.

Lemma getEarthLagrangePoints_collinear_witness :
  Example.placed !! 1%nat = Some (set_position (mkPoint 3 (-4)) Example.earth)
  /\ Example.placed !! 0%nat = Some Example.sun
  /\ ((3, -4) : R * R) <> (0, 0)
  /\ exists l1 l2 l3 l4 l5,
       getEarthLagrangePoints 0%nat 1%nat Example.placed = Some (l1, l2, l3, l4, l5)
       /\ lp_type l1 = L1 /\ lp_type l2 = L2 /\ lp_type l3 = L3.
Proof.
  assert (He : Example.placed !! 1%nat
               = Some (set_position (mkPoint 3 (-4)) Example.earth)) by reflexivity.
  assert (Hs : Example.placed !! 0%nat = Some Example.sun) by reflexivity.
  assert (Hne : ((3, -4) : R * R) <> (0, 0)) by (intros [= H3 H4]; lra).
  split; [exact He|]. split; [exact Hs|]. split; [exact Hne|].
  destruct (getEarthLagrangePoints_collinear 0%nat 1%nat Example.placed _ _
              (mkPoint 3 (-4)) He Hs eq_refl Hne)
    as (l1 & l2 & l3 & l4 & l5 & Hget & H1 & H2 & H3 & _).
  exists l1, l2, l3, l4, l5. split; [exact Hget|].
  rewrite H1, H2, H3. repeat split.
Defined.

Lemma getEarthLagrangePoints_triangular_witness :
  Example.polar !! 1%nat
  = Some (set_position (mkPoint (5 * cos (30 * PI / 180))
                                (- (5 * sin (30 * PI / 180)))) Example.earth)
  /\ Example.polar !! 0%nat = Some Example.sun
  /\ exists l1 l2 l3 l4 l5,
       getEarthLagrangePoints 0%nat 1%nat Example.polar = Some (l1, l2, l3, l4, l5)
       /\ l4 = {| lp_x := 5 * cos ((30 + 60) * PI / 180);
                  lp_y := - (5 * sin ((30 + 60) * PI / 180));
                  lp_type := L4 |}.
Proof.
  assert (He : Example.polar !! 1%nat
               = Some (set_position (mkPoint (5 * cos (30 * PI / 180))
                                             (- (5 * sin (30 * PI / 180))))
                                    Example.earth)) by reflexivity.
  assert (Hs : Example.polar !! 0%nat = Some Example.sun) by reflexivity.
  split; [exact He|]. split; [exact Hs|].
  destruct (getEarthLagrangePoints_triangular 0%nat 1%nat Example.polar _ _ 5 30
              He Hs eq_refl)
    as (l1 & l2 & l3 & l4 & l5 & Hget & H4 & _).
  exists l1, l2, l3, l4, l5. split; [exact Hget | exact H4].
Defined.

Lemma getEarthLagrangePoints_equidistant_witness :
  Example.placed !! 1%nat = Some (set_position (mkPoint 3 (-4)) Example.earth)
  /\ Example.placed !! 0%nat = Some Example.sun
  /\ exists l1 l2 l3 l4 l5,
       getEarthLagrangePoints 0%nat 1%nat Example.placed = Some (l1, l2, l3, l4, l5)
       /\ sqrt (lp_x l4 ^ 2 + lp_y l4 ^ 2) = sqrt (3 ^ 2 + (-4) ^ 2).
Proof.
  assert (He : Example.placed !! 1%nat
               = Some (set_position (mkPoint 3 (-4)) Example.earth)) by reflexivity.
  assert (Hs : Example.placed !! 0%nat = Some Example.sun) by reflexivity.
  split; [exact He|]. split; [exact Hs|].
  destruct (getEarthLagrangePoints_equidistant 0%nat 1%nat Example.placed _ _
              (mkPoint 3 (-4)) He Hs eq_refl)
    as (l1 & l2 & l3 & l4 & l5 & Hget & H4 & _).
  exists l1, l2, l3, l4, l5. split; [exact Hget | exact H4].
Defined.

End LibrationExamples.

(** * The constructor: cached positions *)

Section Initialization.
Context {N : Type} {num : JsNumber N}.
Variable SOLAR_SYSTEM : list loc.
Variables SUN EARTH : loc.

Implicit Types (body : CelestialBody N) (h : gmap loc (CelestialBody N)).

Lemma getPositionForTrueAnomaly_congr h h' (b : loc) body body' (t : N) :
  h !! b = Some body -> h' !! b = Some body' ->
  semiMajorAxis body' = semiMajorAxis body ->
  eccentricity body' = eccentricity body ->
  orbitBody_position h' body' = orbitBody_position h body ->
  getPositionForTrueAnomaly h' b t = getPositionForTrueAnomaly h b t.
Proof.
  intros Hb Hb' Ha He Hp. unfold getPositionForTrueAnomaly, getDistanceToFocusPoint.
  rewrite Hb, Hb'. cbn [mbind option_bind]. rewrite Ha, He, Hp. reflexivity.
Qed.

Lemma orbitBody_position_agree h h' body body' :
  orbitBody body' = orbitBody body ->
  (forall p, orbitBody body = Some p ->
             (h' !! p) ≫= position = (h !! p) ≫= position) ->
  orbitBody_position h' body' = orbitBody_position h body.
Proof.
  intros Ho Hp. unfold orbitBody_position. rewrite Ho.
  destruct (orbitBody body) as [p|]; [|reflexivity].
  cbn [mbind option_bind]. exact (Hp p eq_refl).
Qed.

Lemma settled_agree h h' (c : loc) :
  settled h c ->
  (forall body, h !! c = Some body ->
     exists body', h' !! c = Some body'
       /\ semiMajorAxis body' = semiMajorAxis body
       /\ eccentricity body' = eccentricity body
       /\ trueAnomaly body' = trueAnomaly body
       /\ position body' = position body
       /\ orbitBody body' = orbitBody body) ->
  (forall p, parentOf h c = Some p ->
             (h' !! p) ≫= position = (h !! p) ≫= position) ->
  settled h' c.
Proof.
  intros (body & p & Hc & Hpos & Hget) Hsame Hparent.
  destruct (Hsame _ Hc) as (body' & Hc' & Ha & He & Ht & Hp & Ho).
  exists body', p. split; [exact Hc'|]. split; [congruence|].
  rewrite Ht, <- Hget.
  apply (getPositionForTrueAnomaly_congr _ _ _ _ _ _ Hc Hc' Ha He).
  apply orbitBody_position_agree; [exact Ho|].
  intros q Hq. apply Hparent. unfold parentOf. rewrite Hc. exact Hq.
Qed.

Lemma initBody_inv h (b : loc) h1 :
  initBody h b = Some h1 ->
  exists body p,
    let body1 := set_trueAnomaly (meanAnomaly body) body in
    h !! b = Some body
    /\ getPositionForTrueAnomaly (<[ b := body1 ]> h) b (meanAnomaly body) = Some p
    /\ h1 = <[ b := set_position p body1 ]> (<[ b := body1 ]> h).
Proof.
  unfold initBody. intros Hi.
  destruct (h !! b) as [body|] eqn:Hb; [|discriminate].
  cbn [mbind option_bind trueAnomaly set_trueAnomaly] in Hi.
  destruct (getPositionForTrueAnomaly _ b (meanAnomaly body)) as [p|] eqn:Hp;
    [|discriminate].
  cbn [mbind option_bind] in Hi. injection Hi as <-.
  exists body, p. cbn zeta. auto.
Qed.

Lemma initBody_other h (b : loc) h1 (c : loc) :
  initBody h b = Some h1 -> c <> b -> h1 !! c = h !! c.
Proof.
  intros Hi Hne. destruct (initBody_inv _ _ _ Hi) as (body & p & Hb & _ & ->).
  rewrite !lookup_insert_ne by congruence. reflexivity.
Qed.

Lemma initBody_same h (b : loc) h1 body :
  initBody h b = Some h1 -> h !! b = Some body ->
  exists p, h1 !! b = Some (set_position p (set_trueAnomaly (meanAnomaly body) body)).
Proof.
  intros Hi Hb. destruct (initBody_inv _ _ _ Hi) as (body' & p & Hb' & _ & ->).
  rewrite Hb in Hb'. injection Hb' as <-.
  exists p. apply lookup_insert_eq.
Qed.

Lemma initBody_parentOf h (b : loc) h1 (c : loc) :
  initBody h b = Some h1 -> parentOf h1 c = parentOf h c.
Proof.
  intros Hi. unfold parentOf. destruct (decide (c = b)) as [->|Hne].
  - destruct (initBody_inv _ _ _ Hi) as (body & p & Hb & _ & _).
    destruct (initBody_same _ _ _ _ Hi Hb) as (q & ->). rewrite Hb. reflexivity.
  - rewrite (initBody_other _ _ _ _ Hi Hne). reflexivity.
Qed.

Lemma initBody_id h (b : loc) h1 (c : loc) :
  initBody h b = Some h1 -> id <$> h1 !! c = id <$> h !! c.
Proof.
  intros Hi. destruct (decide (c = b)) as [->|Hne].
  - destruct (initBody_inv _ _ _ Hi) as (body & p & Hb & _ & _).
    destruct (initBody_same _ _ _ _ Hi Hb) as (q & ->). rewrite Hb. reflexivity.
  - rewrite (initBody_other _ _ _ _ Hi Hne). reflexivity.
Qed.

Lemma initBody_settled h (b : loc) h1 :
  initBody h b = Some h1 -> parentOf h b <> Some b -> settled h1 b.
Proof.
  intros Hi Hself.
  destruct (initBody_inv _ _ _ Hi) as (body & p & Hb & Hp & ->).
  cbn zeta in Hp.
  set (body1 := set_trueAnomaly (meanAnomaly body) body) in *.
  exists (set_position p body1), p.
  split; [apply lookup_insert_eq|]. split; [reflexivity|].
  cbn [trueAnomaly set_position set_trueAnomaly body1]. rewrite <- Hp.
  eapply getPositionForTrueAnomaly_congr;
    [apply lookup_insert_eq | apply lookup_insert_eq | reflexivity | reflexivity |].
  apply orbitBody_position_agree; [reflexivity|].
  intros q Hq. rewrite lookup_insert_ne; [reflexivity|].
  intros <-. apply Hself. unfold parentOf. rewrite Hb. exact Hq.
Qed.

Lemma initBody_frame h (b : loc) h1 (c : loc) :
  initBody h b = Some h1 -> c <> b -> parentOf h c <> Some b ->
  settled h c -> settled h1 c.
Proof.
  intros Hi Hne Hpar Hs. apply (settled_agree h); [exact Hs| |].
  - intros body Hc. exists body.
    rewrite (initBody_other _ _ _ _ Hi Hne). auto 10.
  - intros q Hq. rewrite (initBody_other _ _ _ q Hi); [reflexivity|].
    intros ->. apply Hpar. exact Hq.
Qed.

Lemma primaryFirst_ext h h1 (l : list loc) :
  (forall c, parentOf h1 c = parentOf h c) ->
  primaryFirst h1 l = primaryFirst h l.
Proof.
  intros Hp. induction l as [|b l IH]; [reflexivity|].
  cbn [primaryFirst]. rewrite Hp, IH. reflexivity.
Qed.

Lemma forEach_initBody_settled (l : list loc) :
  forall h h',
    forEach initBody l h = Some h' -> primaryFirst h l = true ->
    forall c,
      c ∈ l \/ (settled h c /\ forall p, parentOf h c = Some p -> p ∉ l) ->
      settled h' c.
Proof.
  induction l as [|b l IH]; intros h h' Hf Hpf c Hc.
  - injection Hf as <-. destruct Hc as [Hc|[Hc _]]; [|exact Hc].
    apply elem_of_nil in Hc. contradiction.
  - cbn [forEach] in Hf.
    destruct (initBody h b) as [h1|] eqn:Hi; [|discriminate].
    cbn [mbind option_bind] in Hf.
    cbn [primaryFirst] in Hpf. apply andb_prop in Hpf as [Hb Hrest].
    assert (Hbp : forall p, parentOf h b = Some p -> p ∉ b :: l).
    { intros p Hp. rewrite Hp in Hb. apply bool_decide_eq_true_1 in Hb. exact Hb. }
    assert (Hpar : forall c', parentOf h1 c' = parentOf h c')
      by (intros c'; apply (initBody_parentOf _ _ _ _ Hi)).
    apply (IH h1 h' Hf); [rewrite (primaryFirst_ext _ _ _ Hpar); exact Hrest|].
    destruct (decide (c ∈ l)) as [Hin|Hnin]; [left; exact Hin|]. right.
    destruct (decide (c = b)) as [->|Hne].
    + split.
      * apply (initBody_settled _ _ _ Hi). intros Hp.
        apply (Hbp _ Hp). apply elem_of_cons. left. reflexivity.
      * intros p Hp. rewrite Hpar in Hp. intros Hin.
        apply (Hbp _ Hp). apply elem_of_cons. right. exact Hin.
    + destruct Hc as [Hc|[Hs Hp]].
      { apply elem_of_cons in Hc as [Hc|Hc]; contradiction. }
      split.
      * apply (initBody_frame _ _ _ _ Hi Hne); [|exact Hs].
        intros Hq. apply (Hp _ Hq). apply elem_of_cons. left. reflexivity.
      * intros p Hq. rewrite Hpar in Hq. intros Hin.
        apply (Hp _ Hq). apply elem_of_cons. right. exact Hin.
Qed.

Lemma forEach_initBody_id (l : list loc) :
  forall h h' (c : loc),
    forEach initBody l h = Some h' -> id <$> h' !! c = id <$> h !! c.
Proof.
  induction l as [|b l IH]; intros h h' c Hf.
  - injection Hf as <-. reflexivity.
  - cbn [forEach] in Hf.
    destruct (initBody h b) as [h1|] eqn:Hi; [|discriminate].
    cbn [mbind option_bind] in Hf.
    rewrite (IH _ _ _ Hf). apply (initBody_id _ _ _ _ Hi).
Qed.

(** C2: once the constructor has run over a catalog in primary-first order,
    every body of the catalog other than the sun has a cached position, and
    [getPositionForTrueAnomaly] at the body's true anomaly returns it. *)
Theorem constructor_position_cached h h' :
  SceneService_constructor SOLAR_SYSTEM SUN EARTH h = Some h' ->
  primaryFirst h (List.filter (notSun h) SOLAR_SYSTEM) = true ->
  forall (b : loc) body,
    b ∈ SOLAR_SYSTEM -> h' !! b = Some body -> id body <> "sun"%string ->
    exists p, position body = Some p
      /\ getPositionForTrueAnomaly h' b (trueAnomaly body) = Some p.
Proof.
  unfold SceneService_constructor. intros Hc Hpf b body Hin Hb Hid.
  destruct (forEach initBody _ h) as [h1|] eqn:Hf; [|discriminate].
  cbn [mbind option_bind] in Hc.
  destruct (getEarthLagrangePoints SUN EARTH h1) as [points|]; [|discriminate].
  cbn [mbind option_bind] in Hc.
  destruct (h1 !! EARTH) as [earth|] eqn:He; [|discriminate].
  cbn [mbind option_bind] in Hc. injection Hc as <-.
  assert (Hpos : forall c, (<[ EARTH := set_lagrangePoints points earth ]> h1 !! c)
                           ≫= position = (h1 !! c) ≫= position).
  { intros c. destruct (decide (c = EARTH)) as [->|Hne].
    - rewrite lookup_insert_eq, He. reflexivity.
    - rewrite lookup_insert_ne by congruence. reflexivity. }
  assert (Hs : settled (<[ EARTH := set_lagrangePoints points earth ]> h1) b).
  { apply (settled_agree h1).
    - apply (forEach_initBody_settled _ _ _ Hf Hpf). left.
      apply list_elem_of_In, filter_In. split; [apply list_elem_of_In; exact Hin|].
      unfold notSun.
      assert (Hidb : id <$> h !! b = Some (id body)).
      { rewrite <- (forEach_initBody_id _ _ _ b Hf).
        destruct (decide (b = EARTH)) as [->|Hne].
        - rewrite lookup_insert_eq in Hb. injection Hb as <-. rewrite He. reflexivity.
        - rewrite lookup_insert_ne in Hb by congruence. rewrite Hb. reflexivity. }
      destruct (h !! b) as [body0|]; [|reflexivity].
      injection Hidb as Hidb. rewrite Hidb.
      destruct (String.eqb_spec (id body) "sun"%string); [contradiction|reflexivity].
    - intros body1 Hb1. destruct (decide (b = EARTH)) as [->|Hne].
      + rewrite He in Hb1. injection Hb1 as <-.
        rewrite lookup_insert_eq. eexists. split; [reflexivity|]. auto 10.
      + rewrite lookup_insert_ne by congruence. exists body1. auto 10.
    - intros p _. apply Hpos. }
  destruct Hs as (body' & p & Hb' & Hp & Hget).
  rewrite Hb in Hb'. injection Hb' as <-. exists p. auto.
Qed.

End Initialization.

Section InitializationExamples.
Import Ideal.
Local Open Scope R_scope.

Lemma constructor_position_cached_witness :
  exists h',
    SceneService_constructor Example.SOLAR_SYSTEM 0%nat 1%nat Example.bodies = Some h'
    /\ primaryFirst Example.bodies
         (List.filter (notSun Example.bodies) Example.SOLAR_SYSTEM) = true
    /\ exists body p,
         h' !! 2%nat = Some body /\ id body <> "sun"%string
         /\ position body = Some p
         /\ getPositionForTrueAnomaly h' 2%nat (trueAnomaly body) = Some p.
Proof.
  eexists. split; [reflexivity|]. split; [reflexivity|].
  eexists. 
  match goal with
  | |- exists p, ?h !! _ = Some ?body /\ _ =>
      assert (Hb : h !! 2%nat = Some body) by reflexivity
  end.
  assert (Hid : id Example.moon <> "sun"%string) by discriminate.
  destruct (constructor_position_cached Example.SOLAR_SYSTEM 0%nat 1%nat
              Example.bodies _ eq_refl eq_refl 2%nat _
              ltac:(repeat constructor) Hb Hid) as (p & Hp & Hget).
  exists p. split; [exact Hb|]. split; [exact Hid|]. split; [exact Hp | exact Hget].
Defined.

End InitializationExamples.

(** ** The constructor succeeds on a ready catalog *)

Section InitializationTotal.
Context {N : Type} {num : JsNumber N}.
Variable SOLAR_SYSTEM : list loc.
Variables SUN EARTH : loc.

Implicit Types (body : CelestialBody N) (h : gmap loc (CelestialBody N)).

Lemma ready_ext h h1 (placed l : list loc) :
  (forall c, parentOf h1 c = parentOf h c) ->
  ready h1 placed l = ready h placed l.
Proof.
  intros Hp. revert placed. induction l as [|b l IH]; intros placed; [reflexivity|].
  cbn [ready]. rewrite Hp. destruct (parentOf h b); [|reflexivity].
  rewrite IH. reflexivity.
Qed.

Lemma initBody_total h (b p : loc) :
  parentOf h b = Some p -> is_Some ((h !! p) ≫= position) ->
  exists h1, initBody h b = Some h1 /\ is_Some ((h1 !! b) ≫= position).
Proof.
  unfold parentOf. intros Hpar [pos Hpos].
  destruct (h !! b) as [body|] eqn:Hb; [|discriminate].
  cbn [mbind option_bind] in Hpar.
  set (body1 := set_trueAnomaly (meanAnomaly body) body).
  assert (Hop : exists q, orbitBody_position (<[ b := body1 ]> h) body1 = Some q).
  { unfold orbitBody_position. cbn [orbitBody body1 set_trueAnomaly].
    rewrite Hpar. cbn [mbind option_bind].
    destruct (decide (p = b)) as [->|Hne].
    - rewrite lookup_insert_eq. cbn [mbind option_bind].
      rewrite Hb in Hpos. exists pos. exact Hpos.
    - rewrite lookup_insert_ne by congruence. exists pos. exact Hpos. }
  destruct Hop as [q Hq].
  eexists. split.
  - unfold initBody. rewrite Hb. cbn [mbind option_bind]. fold body1.
    rewrite (getPositionForTrueAnomaly_unfold _ _ body1 q);
      [|apply lookup_insert_eq|exact Hq].
    cbn [mbind option_bind]. reflexivity.
  - rewrite lookup_insert_eq. cbn [mbind option_bind]. eexists. reflexivity.
Qed.

Lemma forEach_initBody_total (l : list loc) :
  forall h (placed : list loc),
    (forall c, c ∈ placed -> is_Some ((h !! c) ≫= position)) ->
    ready h placed l = true ->
    exists h', forEach initBody l h = Some h'
      /\ (forall c, c ∈ placed \/ c ∈ l -> is_Some ((h' !! c) ≫= position))
      /\ (forall c, is_Some (h !! c) -> is_Some (h' !! c)).
Proof.
  induction l as [|b l IH]; intros h placed Hpl Hr.
  - exists h. split; [reflexivity|]. split; [|auto].
    intros c [Hc|Hc]; [auto|]. apply elem_of_nil in Hc. contradiction.
  - cbn [ready] in Hr. destruct (parentOf h b) as [p|] eqn:Hpar; [|discriminate].
    apply andb_prop in Hr as [Hp Hr]. apply bool_decide_eq_true_1 in Hp.
    destruct (initBody_total h b p Hpar (Hpl _ Hp)) as (h1 & Hi & Hb1).
    assert (Hpl1 : forall c, c ∈ b :: placed -> is_Some ((h1 !! c) ≫= position)).
    { intros c Hc. destruct (decide (c = b)) as [->|Hne]; [exact Hb1|].
      rewrite (initBody_other _ _ _ _ Hi Hne). apply Hpl.
      apply elem_of_cons in Hc as [Hc|Hc]; [contradiction|exact Hc]. }
    rewrite <- (ready_ext h h1) in Hr
      by (intros c; apply (initBody_parentOf _ _ _ _ Hi)).
    destruct (IH h1 (b :: placed) Hpl1 Hr) as (h' & Hf & Hall & Hkeep).
    exists h'. split; [cbn [forEach]; rewrite Hi; exact Hf|]. split.
    + intros c Hc. apply Hall. rewrite !elem_of_cons in *. tauto.
    + intros c Hc. apply Hkeep. destruct (decide (c = b)) as [->|Hne].
      * destruct Hb1 as [q Hq]. destruct (h1 !! b); [eauto|discriminate].
      * rewrite (initBody_other _ _ _ _ Hi Hne). exact Hc.
Qed.

(** The constructor returns when every body other than the sun orbits a
    body placed before it, the earth is among the placed bodies and the sun
    exists. *)
Lemma constructor_total h (placed : list loc) :
  (forall c, c ∈ placed -> is_Some ((h !! c) ≫= position)) ->
  ready h placed (List.filter (notSun h) SOLAR_SYSTEM) = true ->
  EARTH ∈ placed ++ List.filter (notSun h) SOLAR_SYSTEM ->
  is_Some (h !! SUN) ->
  is_Some (SceneService_constructor SOLAR_SYSTEM SUN EARTH h).
Proof.
  intros Hpl Hr He Hs.
  destruct (forEach_initBody_total _ _ _ Hpl Hr) as (h' & Hf & Hall & Hkeep).
  unfold SceneService_constructor. rewrite Hf. cbn [mbind option_bind].
  apply elem_of_app in He.
  destruct (Hall EARTH He) as [pos Hpos].
  destruct (h' !! EARTH) as [earth|] eqn:Hearth; [|discriminate].
  cbn [mbind option_bind] in Hpos.
  destruct (Hkeep SUN Hs) as [sun Hsun].
  unfold getEarthLagrangePoints. rewrite Hearth. cbn [mbind option_bind].
  rewrite Hsun. cbn [mbind option_bind]. rewrite Hpos. cbn [mbind option_bind].
  eexists. reflexivity.
Qed.

End InitializationTotal.

Section InitializationOrder.
Import Ideal.

(** The example catalog is ready, with the sun placed from the start. *)
Lemma constructor_total_example :
  is_Some (SceneService_constructor Example.SOLAR_SYSTEM 0%nat 1%nat Example.bodies).
Proof.
  apply (constructor_total _ _ _ _ [0%nat]).
  - intros c Hc. apply list_elem_of_singleton in Hc as ->. eexists. reflexivity.
  - reflexivity.
  - apply elem_of_cons. right. apply elem_of_cons. left. reflexivity.
  - eexists. reflexivity.
Qed.

(** With the moon listed before the earth the constructor throws: the moon's
    position is asked for while the earth has none. *)
Lemma constructor_moon_first :
  SceneService_constructor [0%nat; 2%nat; 1%nat] 0%nat 1%nat Example.bodies = None.
Proof. reflexivity. Qed.

End InitializationOrder.

(** * Orbit paths *)

Section PathFacts.
Context {N : Type} {num : JsNumber N}.
Local Open Scope js_scope.

Implicit Types (h : gmap loc (CelestialBody N)).

Lemma sort_insert_perm {A} (compare : A -> A -> N) (a : A) (l : list A) :
  sort_insert compare a l ≡ₚ a :: l.
Proof.
  induction l as [|b l IH]; [reflexivity|].
  cbn [sort_insert]. destruct (ltb #0 (compare a b)); [|reflexivity].
  rewrite IH. apply Permutation_swap.
Qed.

Lemma Array_sort_perm {A} (compare : A -> A -> N) (l : list A) :
  Array_sort compare l ≡ₚ l.
Proof.
  induction l as [|a l IH]; [reflexivity|].
  cbn [Array_sort foldr]. rewrite sort_insert_perm. fold (Array_sort compare l).
  rewrite IH. reflexivity.
Qed.

Lemma mapM_total {A B} (f : A -> option B) (g : A -> B) (l : list A) :
  (forall a, a ∈ l -> f a = Some (g a)) -> mapM f l = Some (map g l).
Proof.
  intros Hf. apply mapM_Some_2. induction l as [|a l IH]; constructor.
  - apply Hf. apply elem_of_cons. left. reflexivity.
  - apply IH. intros a' Ha'. apply Hf. apply elem_of_cons. right. exact Ha'.
Qed.

(** The path has one point more than [d3.range] has angles. *)
Lemma getOrbitPath_length h (b : loc) (nbPoints : N) path :
  getOrbitPath h b nbPoints = Some path ->
  exists angles, d3_range #0 #360 (#360 / nbPoints) = Some angles
                 /\ length path = S (length angles).
Proof.
  unfold getOrbitPath. intros Hp.
  destruct (d3_range #0 #360 (#360 / nbPoints)) as [angles|]; [|discriminate].
  cbn [mbind option_bind] in Hp.
  destruct (mapM _ angles) as [result|] eqn:Hm; [|discriminate].
  cbn [mbind option_bind] in Hp.
  destruct (h !! b) as [body|]; [|discriminate]. cbn [mbind option_bind] in Hp.
  destruct (position body) as [p|]; [|discriminate]. cbn [mbind option_bind] in Hp.
  injection Hp as <-. exists angles. split; [reflexivity|].
  rewrite (Permutation_length (Array_sort_perm _ _)), length_app.
  rewrite <- (length_mapM _ _ _ Hm). cbn [length]. lia.
Qed.

End PathFacts.

(** ** In exact arithmetic *)

Section IdealPath.
Import Ideal.
Local Open Scope R_scope.

Implicit Types (h : gmap loc (CelestialBody R)) (l : list (OrbitPoint R)).

Lemma toInt32_small (n : Z) : (0 <= n < 2 ^ 31)%Z -> toInt32 (Z.max 0 n) = n.
Proof.
  intros Hn. unfold toInt32. rewrite Z.max_r by lia.
  rewrite Z.mod_small by lia. lia.
Qed.

Lemma d3_range_ideal (n : Z) :
  (0 < n < 2 ^ 31)%Z ->
  d3_range (N := R) 0 360 (360 / IZR n)
  = Some (map (fun i : nat => 0 + IZR (Z.of_nat i) * (360 / IZR n))
              (seq 0 (Z.to_nat n))).
Proof.
  intros Hn. assert (Hr : 0 < IZR n) by (apply IZR_lt; lia).
  unfold d3_range, d3_range_length. ideal.
  replace ((360 - 0) / (360 / IZR n)) with (IZR n) by (field; lra).
  rewrite (Zceil_eq n) by lra. rewrite toInt32_small by lia.
  destruct (Z.ltb_spec n 0); [lia|]. reflexivity.
Qed.

Lemma sample_angle_range (n : Z) (i : nat) :
  (0 < n)%Z -> (i < Z.to_nat n)%nat ->
  0 <= 0 + IZR (Z.of_nat i) * (360 / IZR n) < 360.
Proof.
  intros Hn Hi. assert (Hr : 0 < IZR n) by (apply IZR_lt; lia).
  assert (H0 : 0 <= IZR (Z.of_nat i)) by (apply IZR_le; lia).
  assert (H1 : IZR (Z.of_nat i) < IZR n) by (apply IZR_lt; lia).
  replace (0 + IZR (Z.of_nat i) * (360 / IZR n))
    with (360 * (IZR (Z.of_nat i) / IZR n)) by (field; lra).
  assert (H2 : 0 <= IZR (Z.of_nat i) / IZR n) by (apply div_nonneg; lra).
  assert (H3 : IZR (Z.of_nat i) / IZR n < 1).
  { apply Rmult_lt_reg_r with (IZR n); [exact Hr|].
    replace (IZR (Z.of_nat i) / IZR n * IZR n) with (IZR (Z.of_nat i))
      by (field; lra). lra. }
  lra.
Qed.

Lemma sort_insert_sorted (a : OrbitPoint R) l :
  StronglySorted byTrueAnomaly l ->
  StronglySorted byTrueAnomaly
    (sort_insert (fun p1 p2 => op_trueAnomaly p1 - op_trueAnomaly p2) a l).
Proof.
  induction 1 as [|b l Hl IH Hb].
  - repeat constructor.
  - cbn [sort_insert]. ideal.
    destruct (Rlt_dec 0 (op_trueAnomaly a - op_trueAnomaly b)) as [Hlt|Hge].
    + constructor; [exact IH|].
      eapply Permutation_Forall; [symmetry; apply sort_insert_perm|].
      constructor; [unfold byTrueAnomaly; lra | exact Hb].
    + constructor; [constructor; assumption|].
      assert (Hab : byTrueAnomaly a b) by (unfold byTrueAnomaly; lra).
      constructor; [exact Hab|].
      eapply Forall_impl; [exact Hb|].
      intros c Hbc. unfold byTrueAnomaly in *. lra.
Qed.

Lemma Array_sort_sorted l :
  StronglySorted byTrueAnomaly
    (Array_sort (fun p1 p2 => op_trueAnomaly p1 - op_trueAnomaly p2) l).
Proof.
  induction l as [|a l IH]; [constructor|].
  cbn [Array_sort foldr]. apply sort_insert_sorted. exact IH.
Qed.

(** In exact arithmetic the path of [n] samples is what its name says: the
    [n] points at the true anomalies [i * 360 / n], [i < n], all in
    [[0, 360)], and the body's own point, [n + 1] points in all, in
    non-decreasing order of true anomaly. *)
Theorem getOrbitPath_ideal h (b : loc) body (p q : Point R) (n : Z) :
  h !! b = Some body -> orbitBody_position h body = Some p ->
  position body = Some q -> (0 < n < 2 ^ 31)%Z ->
  exists samples path,
    getOrbitPath h b (IZR n) = Some path
    /\ length samples = Z.to_nat n
    /\ (forall i : nat, (i < Z.to_nat n)%nat ->
          exists pt, samples !! i = Some pt
            /\ op_trueAnomaly pt = IZR (Z.of_nat i) * 360 / IZR n
            /\ 0 <= op_trueAnomaly pt < 360
            /\ getPositionForTrueAnomaly h b (op_trueAnomaly pt)
               = Some {| x := op_x pt; y := op_y pt |})
    /\ path ≡ₚ samples ++ [ {| op_trueAnomaly := trueAnomaly body;
                               op_x := x q; op_y := y q |} ]
    /\ StronglySorted byTrueAnomaly path
    /\ length path = S (Z.to_nat n).
Proof.
  intros Hb Hp Hq Hn. assert (Hr : 0 < IZR n) by (apply IZR_lt; lia).
  set (at_ := fun t : R =>
         {| op_trueAnomaly := t;
            op_x := getDistanceToFocusPoint body t * cos (t * DEG_TO_RAD)
                    / KM_TO_PX + x p;
            op_y := - getDistanceToFocusPoint body t * sin (t * DEG_TO_RAD)
                    / KM_TO_PX + y p |}).
  set (angles := map (fun i : nat => 0 + IZR (Z.of_nat i) * (360 / IZR n))
                     (seq 0 (Z.to_nat n))).
  assert (Hat : forall t, getPositionForTrueAnomaly h b t
                          = Some {| x := op_x (at_ t); y := op_y (at_ t) |}).
  { intros t. rewrite (getPositionForTrueAnomaly_unfold _ _ _ _ t Hb Hp).
    reflexivity. }
  exists (map at_ angles). eexists.
  split.
  { unfold getOrbitPath. ideal. rewrite (d3_range_ideal n Hn).
    cbn [mbind option_bind]. fold angles.
    rewrite (mapM_total _ at_).
    - cbn [mbind option_bind]. rewrite Hb. cbn [mbind option_bind].
      rewrite Hq. cbn [mbind option_bind]. reflexivity.
    - intros t _. rewrite Hat. reflexivity. }
  split; [unfold angles; rewrite !length_map, length_seq; reflexivity|].
  split.
  { intros i Hi. exists (at_ (0 + IZR (Z.of_nat i) * (360 / IZR n))).
    split.
    - unfold angles. rewrite !list_lookup_fmap.
      rewrite lookup_seq_lt by exact Hi. reflexivity.
    - cbn [op_trueAnomaly at_]. split; [field; lra|].
      split; [apply sample_angle_range; [lia | exact Hi]|]. apply Hat. }
  split; [apply Array_sort_perm|].
  split; [apply Array_sort_sorted|].
  rewrite (Permutation_length (Array_sort_perm _ _)), length_app.
  unfold angles. rewrite !length_map, length_seq. cbn [length]. lia.
Qed.

End IdealPath.

(** ** In double precision *)

Section Binary64Path.
Variable fpow : float -> Z -> float.
Variables fcbrt fcos fsin : float -> float.

Local Open Scope js_scope.

Let binary64 : JsNumber float := Binary64.number fpow fcbrt fcos fsin.
Local Existing Instance binary64.

(** [Binary64.ceil] on a few doubles. *)
#[warnings="-inexact-float"]
Lemma Binary64_ceil_examples :
  Binary64.ceil 2.5%float = Some 3%Z
  /\ Binary64.ceil (-2.5)%float = Some (-2)%Z
  /\ Binary64.ceil 161%float = Some 161%Z
  /\ Binary64.ceil 161.00000000000003%float = Some 162%Z
  /\ Binary64.ceil 0x1p-1074%float = Some 1%Z
  /\ Binary64.ceil PrimFloat.nan = None
  /\ Binary64.ceil PrimFloat.infinity = None.
Proof. repeat split; vm_compute; reflexivity. Qed.

(** In double precision [360 / 161] is [2.2360248447204967] and
    [360 / 2.2360248447204967] is [161.00000000000003]: [d3.range] rounds it
    up to 162 angles, the last of them [161 * (360 / 161)], which is
    [359.99999999999994]. *)
#[warnings="-inexact-float"]
Lemma d3_range_binary64_161 :
  let step := PrimFloat.div (Binary64.of_int 360) (Binary64.of_int 161) in
  step = 2.2360248447204967%float
  /\ PrimFloat.div (PrimFloat.sub (Binary64.of_int 360) (Binary64.of_int 0)) step
     = 161.00000000000003%float
  /\ d3_range_length (num := binary64) #0 #360 (#360 / #161) = 162%Z
  /\ d3_range (num := binary64) #0 #360 (#360 / #161) ≫= last
     = Some 359.99999999999994%float.
Proof. repeat split; vm_compute; reflexivity. Qed.

(** For 227 samples the extra angle is 360 itself, outside [[0, 360)]. *)
Lemma d3_range_binary64_227 :
  d3_range_length (num := binary64) #0 #360 (#360 / #227) = 228%Z
  /\ d3_range (num := binary64) #0 #360 (#360 / #227) ≫= last = Some 360%float.
Proof. repeat split; vm_compute; reflexivity. Qed.

(** The default of 360 samples has a step of 1 and is exact. *)
Lemma d3_range_binary64_360 :
  d3_range_length (num := binary64) #0 #360 (#360 / #360) = 360%Z
  /\ d3_range (num := binary64) #0 #360 (#360 / #360) ≫= last = Some 359%float.
Proof. repeat split; vm_compute; reflexivity. Qed.

(** Whenever the path of 161 samples is returned it has 163 points. *)
Lemma getOrbitPath_binary64_161_length (h : gmap loc (CelestialBody float))
    (b : loc) (path : list (OrbitPoint float)) :
  getOrbitPath (num := binary64) h b #161 = Some path -> length path = 163%nat.
Proof.
  intros Hp. destruct (getOrbitPath_length _ _ _ _ Hp) as (angles & Ha & ->).
  f_equal. vm_compute in Ha. injection Ha as <-. reflexivity.
Qed.

(** C1, as the code runs: for 161 samples the path of a body has 163 points,
    not 162, whatever the engine's cosine and sine. *)
Theorem getOrbitPath_binary64_161 :
  length <$> getOrbitPath (num := binary64) Example64.bodies 1%nat #161
  = Some 163%nat.
Proof. vm_compute. reflexivity. Qed.

End Binary64Path.

(** * More on the orbit geometry engine *)

Section OrbitSymmetry.
Import Ideal.
Local Open Scope R_scope.

Implicit Types (body : CelestialBody R) (h : gmap loc (CelestialBody R)).

Lemma turns (t : R) (k : Z) :
  cos ((t + 360 * IZR k) * DEG_TO_RAD) = cos (t * DEG_TO_RAD)
  /\ sin ((t + 360 * IZR k) * DEG_TO_RAD) = sin (t * DEG_TO_RAD).
Proof.
  rewrite !DEG_TO_RAD_radians.
  destruct (Z_le_gt_dec 0 k) as [Hk|Hk].
  - replace ((t + 360 * IZR k) * PI / 180)
      with (t * PI / 180 + 2 * INR (Z.to_nat k) * PI).
    + split; [apply cos_period | apply sin_period].
    + rewrite INR_IZR_INZ, Z2Nat.id by exact Hk. field.
  - replace (t * PI / 180)
      with ((t + 360 * IZR k) * PI / 180 + 2 * INR (Z.to_nat (- k)) * PI).
    + split; symmetry; [apply cos_period | apply sin_period].
    + rewrite INR_IZR_INZ, Z2Nat.id, opp_IZR by lia. field.
Qed.

(** X1: whole turns do not matter: the distance to the focus and the
    position at a true anomaly [t + 360 k], [k] an integer, are those at [t];
    so is the failure when the orbited body has no position. *)
Theorem getPositionForTrueAnomaly_periodic h (b : loc) body (t : R) (k : Z) :
  getDistanceToFocusPoint body (t + 360 * IZR k) = getDistanceToFocusPoint body t
  /\ getPositionForTrueAnomaly h b (t + 360 * IZR k)
     = getPositionForTrueAnomaly h b t.
Proof.
  destruct (turns t k) as [Hc Hs].
  assert (Hd : forall body', getDistanceToFocusPoint body' (t + 360 * IZR k)
                             = getDistanceToFocusPoint body' t).
  { intros body'. unfold getDistanceToFocusPoint. ideal. rewrite Hc. reflexivity. }
  split; [apply Hd|].
  unfold getPositionForTrueAnomaly. destruct (h !! b) as [body'|]; [|reflexivity].
  cbn [mbind option_bind]. ideal. rewrite Hd, Hc, Hs. reflexivity.
Qed.

(** X2: the orbit is symmetric about its major axis: at the true anomaly
    [- t] the distance to the focus is the one at [t], and the position is
    the one at [t] mirrored in the horizontal line through the orbited
    body. *)
Theorem getPositionForTrueAnomaly_mirror h (b : loc) body (p pt : Point R) (t : R) :
  h !! b = Some body -> orbitBody_position h body = Some p ->
  getPositionForTrueAnomaly h b t = Some pt ->
  getDistanceToFocusPoint body (- t) = getDistanceToFocusPoint body t
  /\ getPositionForTrueAnomaly h b (- t)
     = Some {| x := x pt; y := 2 * y p - y pt |}.
Proof.
  intros Hb Hp Hpt.
  assert (Hc : cos (- t * DEG_TO_RAD) = cos (t * DEG_TO_RAD)).
  { replace (- t * DEG_TO_RAD) with (- (t * DEG_TO_RAD)) by ring. apply cos_neg. }
  assert (Hs : sin (- t * DEG_TO_RAD) = - sin (t * DEG_TO_RAD)).
  { replace (- t * DEG_TO_RAD) with (- (t * DEG_TO_RAD)) by ring. apply sin_neg. }
  assert (Hd : getDistanceToFocusPoint body (- t) = getDistanceToFocusPoint body t).
  { unfold getDistanceToFocusPoint. ideal. rewrite Hc. reflexivity. }
  split; [exact Hd|].
  rewrite (getPositionForTrueAnomaly_unfold _ _ _ _ _ Hb Hp) in Hpt.
  apply (inj Some) in Hpt. subst pt.
  rewrite (getPositionForTrueAnomaly_unfold _ _ _ _ _ Hb Hp).
  cbn [x y]. unfold KM_TO_PX. ideal. rewrite Hd, Hc, Hs.
  apply f_equal. apply (f_equal2 mkPoint); [reflexivity | field].
Qed.

Lemma getPositionForTrueAnomaly_mirror_witness :
  exists pt,
    getPositionForTrueAnomaly Example.bodies 1%nat 90 = Some pt
    /\ getPositionForTrueAnomaly Example.bodies 1%nat (- 90)
       = Some {| x := x pt; y := 2 * 0 - y pt |}.
Proof.
  eexists. split; [reflexivity|].
  exact (proj2 (getPositionForTrueAnomaly_mirror Example.bodies 1%nat Example.earth
                  (mkPoint 0 0) _ 90 eq_refl eq_refl eq_refl)).
Defined.

Lemma conic_denominator body (t : R) :
  0 <= eccentricity body < 1 ->
  0 < 1 + eccentricity body * cos (t * DEG_TO_RAD).
Proof.
  intros He. pose proof (COS_bound (t * DEG_TO_RAD)) as Hc.
  pose proof (denominator_bounds _ _ He Hc). lra.
Qed.

Lemma getDistanceToFocusPoint_pos body (t : R) :
  0 < semiMajorAxis body -> 0 <= eccentricity body < 1 ->
  0 < getDistanceToFocusPoint body t.
Proof.
  intros Ha He. pose proof (conic_denominator body t He) as Hden.
  unfold getDistanceToFocusPoint. ideal. rewrite powerRZ_2.
  apply Rdiv_lt_0_compat; [|exact Hden].
  apply Rmult_lt_0_compat; [exact Ha | nra].
Qed.

(** X3: the position at any true anomaly lies on the ellipse drawn for the
    orbit: it satisfies [((x - cx) / rx)^2 + ((y - cy) / ry)^2 = 1]. *)
Theorem getPositionForTrueAnomaly_on_ellipse h (b : loc) body (p : Point R) (t : R) :
  h !! b = Some body -> orbitBody_position h body = Some p ->
  0 < semiMajorAxis body -> 0 <= eccentricity body < 1 ->
  exists pt el,
    getPositionForTrueAnomaly h b t = Some pt
    /\ getOrbitEllipse h b = Some el
    /\ ((x pt - cx el) / rx el) ^ 2 + ((y pt - cy el) / ry el) ^ 2 = 1.
Proof.
  intros Hb Hp Ha He. do 2 eexists.
  split; [apply (getPositionForTrueAnomaly_unfold _ _ _ _ _ Hb Hp)|].
  split; [apply (getOrbitEllipse_eq _ _ _ _ Hb Hp Ha He)|].
  cbn [x y cx cy rx ry]. unfold getDistanceToFocusPoint, KM_TO_PX. ideal.
  rewrite powerRZ_2.
  pose proof (conic_denominator body t He) as Hden.
  destruct (sqrt_one_minus_sq _ He) as [[Hq0 _] _].
  assert (Hqq : sqrt (1 - eccentricity body ^ 2) * sqrt (1 - eccentricity body ^ 2)
                = 1 - eccentricity body ^ 2) by (apply sqrt_sqrt; nra).
  pose proof (sin2_cos2 (t * DEG_TO_RAD)) as Hsc. unfold Rsqr in Hsc.
  set (a := semiMajorAxis body) in *. set (e := eccentricity body) in *.
  set (c := cos (t * DEG_TO_RAD)) in *. set (s := sin (t * DEG_TO_RAD)) in *.
  set (q := sqrt (1 - e ^ 2)) in *.
  replace ((a * (1 - e ^ 2) / (1 + e * c) * c / 100000 + x p
            - (x p - a * e / 100000)) / (a / 100000))
    with ((c + e) / (1 + e * c)) by (field; lra).
  replace ((- (a * (1 - e ^ 2) / (1 + e * c)) * s / 100000 + y p - y p)
           / (a * q / 100000))
    with (- (q * s) / (1 + e * c)).
  - replace (((c + e) / (1 + e * c)) ^ 2 + (- (q * s) / (1 + e * c)) ^ 2)
      with (((c + e) ^ 2 + (q * q) * (s * s)) / ((1 + e * c) ^ 2)) by (field; lra).
    rewrite Hqq. replace (s * s) with (1 - c * c) by lra. field. lra.
  - replace (1 - e ^ 2) with (q * q) by exact Hqq. field. lra.
Qed.

Lemma getPositionForTrueAnomaly_on_ellipse_witness :
  exists pt el,
    getPositionForTrueAnomaly Example.bodies 1%nat 45 = Some pt
    /\ getOrbitEllipse Example.bodies 1%nat = Some el
    /\ ((x pt - cx el) / rx el) ^ 2 + ((y pt - cy el) / ry el) ^ 2 = 1.
Proof.
  assert (Ha : 0 < semiMajorAxis Example.earth) by (simpl; lra).
  assert (He : 0 <= eccentricity Example.earth < 1) by (simpl; lra).
  exact (getPositionForTrueAnomaly_on_ellipse Example.bodies 1%nat Example.earth
           (mkPoint 0 0) 45 eq_refl eq_refl Ha He).
Defined.

(** X4: the returned position is as far from the orbited body as the
    distance to the focus says, in pixels. *)
Theorem getPositionForTrueAnomaly_distance h (b : loc) body (p : Point R) (t : R) :
  h !! b = Some body -> orbitBody_position h body = Some p ->
  0 < semiMajorAxis body -> 0 <= eccentricity body < 1 ->
  exists pt,
    getPositionForTrueAnomaly h b t = Some pt
    /\ sqrt ((x pt - x p) ^ 2 + (y pt - y p) ^ 2)
       = getDistanceToFocusPoint body t / 100000.
Proof.
  intros Hb Hp Ha He. eexists.
  split; [apply (getPositionForTrueAnomaly_unfold _ _ _ _ _ Hb Hp)|].
  cbn [x y]. unfold KM_TO_PX. ideal.
  pose proof (getDistanceToFocusPoint_pos body t Ha He) as Hlow.
  pose proof (sin2_cos2 (t * DEG_TO_RAD)) as Hsc. unfold Rsqr in Hsc.
  set (d := getDistanceToFocusPoint body t) in *.
  set (c := cos (t * DEG_TO_RAD)) in *. set (s := sin (t * DEG_TO_RAD)) in *.
  replace ((d * c / 100000 + x p - x p) ^ 2 + (- d * s / 100000 + y p - y p) ^ 2)
    with ((d / 100000) ^ 2).
  - apply sqrt_pow2. apply div_nonneg; lra.
  - replace ((d * c / 100000 + x p - x p) ^ 2 + (- d * s / 100000 + y p - y p) ^ 2)
      with ((d / 100000) ^ 2 * (s * s + c * c)) by field.
    rewrite Hsc. ring.
Qed.

Lemma getPositionForTrueAnomaly_distance_witness :
  exists pt,
    getPositionForTrueAnomaly Example.bodies 1%nat 45 = Some pt
    /\ sqrt ((x pt - 0) ^ 2 + (y pt - 0) ^ 2)
       = getDistanceToFocusPoint Example.earth 45 / 100000.
Proof.
  assert (Ha : 0 < semiMajorAxis Example.earth) by (simpl; lra).
  assert (He : 0 <= eccentricity Example.earth < 1) by (simpl; lra).
  exact (getPositionForTrueAnomaly_distance Example.bodies 1%nat Example.earth
           (mkPoint 0 0) 45 eq_refl eq_refl Ha He).
Defined.

(** X5: periapsis and apoapsis are the ends of the ellipse's horizontal
    axis: the position at 0 degrees is [(cx + rx, cy)] and the position at
    180 degrees is [(cx - rx, cy)]. *)
Theorem getPositionForTrueAnomaly_vertices h (b : loc) body (p : Point R) :
  h !! b = Some body -> orbitBody_position h body = Some p ->
  0 < semiMajorAxis body -> 0 <= eccentricity body < 1 ->
  exists el,
    getOrbitEllipse h b = Some el
    /\ getPositionForTrueAnomaly h b 0 = Some {| x := cx el + rx el; y := cy el |}
    /\ getPositionForTrueAnomaly h b 180 = Some {| x := cx el - rx el; y := cy el |}.
Proof.
  intros Hb Hp Ha He. eexists.
  split; [apply (getOrbitEllipse_eq _ _ _ _ Hb Hp Ha He)|].
  rewrite !(getPositionForTrueAnomaly_unfold _ _ _ _ _ Hb Hp).
  cbn [cx cy rx]. unfold getDistanceToFocusPoint, KM_TO_PX. ideal.
  rewrite !DEG_TO_RAD_radians, powerRZ_2.
  replace (0 * PI / 180) with 0 by lra.
  replace (180 * PI / 180) with PI by lra.
  rewrite cos_0, sin_0, cos_PI, sin_PI.
  split; apply f_equal; apply (f_equal2 mkPoint); field; lra.
Qed.

Lemma getPositionForTrueAnomaly_vertices_witness :
  exists el,
    getOrbitEllipse Example.bodies 1%nat = Some el
    /\ getPositionForTrueAnomaly Example.bodies 1%nat 0
       = Some {| x := cx el + rx el; y := cy el |}.
Proof.
  assert (Ha : 0 < semiMajorAxis Example.earth) by (simpl; lra).
  assert (He : 0 <= eccentricity Example.earth < 1) by (simpl; lra).
  destruct (getPositionForTrueAnomaly_vertices Example.bodies 1%nat Example.earth
              (mkPoint 0 0) eq_refl eq_refl Ha He) as (el & Hel & H0 & _).
  exists el. split; [exact Hel | exact H0].
Defined.

End OrbitSymmetry.

(** * More on orbit paths *)

Section PathContents.
Context {N : Type} {num : JsNumber N}.
Local Open Scope js_scope.

Implicit Types (h : gmap loc (CelestialBody N)).

Lemma getOrbitPath_inv h (b : loc) (nbPoints : N) path :
  getOrbitPath h b nbPoints = Some path ->
  exists angles result body q,
    d3_range #0 #360 (#360 / nbPoints) = Some angles
    /\ Forall2 (fun t pt => exists point,
                  getPositionForTrueAnomaly h b t = Some point
                  /\ pt = {| op_trueAnomaly := t; op_x := x point; op_y := y point |})
               angles result
    /\ h !! b = Some body /\ position body = Some q
    /\ path = Array_sort (fun p1 p2 => op_trueAnomaly p1 - op_trueAnomaly p2)
                (result ++ [ {| op_trueAnomaly := trueAnomaly body;
                                op_x := x q; op_y := y q |} ]).
Proof.
  unfold getOrbitPath. intros Hp.
  destruct (d3_range #0 #360 (#360 / nbPoints)) as [angles|]; [|discriminate].
  cbn [mbind option_bind] in Hp.
  destruct (mapM _ angles) as [result|] eqn:Hm; [|discriminate].
  cbn [mbind option_bind] in Hp.
  destruct (h !! b) as [body|]; [|discriminate]. cbn [mbind option_bind] in Hp.
  destruct (position body) as [q|] eqn:Hq; [|discriminate].
  cbn [mbind option_bind] in Hp. injection Hp as <-.
  exists angles, result, body, q.
  split; [reflexivity|]. split; [|auto].
  apply mapM_Some_1 in Hm. eapply Forall2_impl; [exact Hm|].
  intros t pt Ht. cbn beta in Ht.
  destruct (getPositionForTrueAnomaly h b t) as [point|]; [|discriminate].
  cbn [mbind option_bind] in Ht. injection Ht as <-. exists point. auto.
Qed.

(** X6: whenever a path is returned, whatever the arithmetic, the body has a
    cached position and the path passes through it: it holds the point made
    of the body's true anomaly and position.  Every other point of the path
    is the position at its own true anomaly, and a path with such points
    needs the orbited body's position. *)
Theorem getOrbitPath_through_body h (b : loc) (nbPoints : N) path :
  getOrbitPath h b nbPoints = Some path ->
  exists body q own rest,
    h !! b = Some body /\ position body = Some q
    /\ own = {| op_trueAnomaly := trueAnomaly body; op_x := x q; op_y := y q |}
    /\ path ≡ₚ rest ++ [own]
    /\ Forall (fun pt => getPositionForTrueAnomaly h b (op_trueAnomaly pt)
                         = Some {| x := op_x pt; y := op_y pt |}) rest
    /\ (rest <> [] -> is_Some (orbitBody_position h body)).
Proof.
  intros Hp.
  destruct (getOrbitPath_inv _ _ _ _ Hp)
    as (angles & result & body & q & _ & Hres & Hb & Hq & ->).
  exists body, q. eexists. exists result. split; [exact Hb|]. split; [exact Hq|].
  split; [reflexivity|]. split; [apply Array_sort_perm|].
  assert (Hall : Forall (fun pt => getPositionForTrueAnomaly h b (op_trueAnomaly pt)
                                   = Some {| x := op_x pt; y := op_y pt |}) result).
  { clear Hp. induction Hres as [|t pt angles result (point & Hpt & ->) _ IH];
      constructor; [|exact IH].
    cbn [op_trueAnomaly op_x op_y]. rewrite Hpt. destruct point. reflexivity. }
  split; [exact Hall|].
  intros Hne. destruct result as [|pt result]; [contradiction|].
  apply Forall_cons in Hall as [Hpt _].
  unfold getPositionForTrueAnomaly in Hpt. rewrite Hb in Hpt.
  cbn [mbind option_bind] in Hpt.
  destruct (orbitBody_position h body) as [p|]; [eauto|discriminate].
Qed.

End PathContents.

Section IdealPathShape.
Import Ideal.
Local Open Scope R_scope.

Implicit Types (h : gmap loc (CelestialBody R)) (l : list (OrbitPoint R)).

Lemma getOrbitPath_through_body_witness :
  exists path body q rest,
    getOrbitPath Example.placed 1%nat 4 = Some path
    /\ Example.placed !! 1%nat = Some body /\ position body = Some q
    /\ path ≡ₚ rest ++ [ {| op_trueAnomaly := trueAnomaly body;
                            op_x := x q; op_y := y q |} ].
Proof.
  destruct (getOrbitPath_ideal Example.placed 1%nat _ (mkPoint 0 0) (mkPoint 3 (-4)) 4
              eq_refl eq_refl eq_refl ltac:(lia)) as (samples & path & Hpath & _).
  destruct (getOrbitPath_through_body Example.placed 1%nat 4 path Hpath)
    as (body & q & own & rest & Hb & Hq & -> & Hperm & _).
  exists path, body, q, rest. auto.
Defined.

Lemma d3_range_ideal_real (r : R) :
  r <> 0 -> (Zceil r < 2 ^ 31)%Z ->
  d3_range (N := R) 0 360 (360 / r)
  = Some (map (fun i : nat => 0 + IZR (Z.of_nat i) * (360 / r))
              (seq 0 (Z.to_nat (Zceil r)))).
Proof.
  intros Hr Hc. unfold d3_range, d3_range_length. ideal.
  replace ((360 - 0) / (360 / r)) with r by (field; lra).
  assert (Ht : toInt32 (Z.max 0 (Zceil r)) = Z.max 0 (Zceil r)).
  { unfold toInt32. rewrite Z.mod_small by lia. lia. }
  rewrite Ht. destruct (Z.ltb_spec (Z.max 0 (Zceil r)) 0); [lia|].
  rewrite Z2Nat.inj_max. cbn [Z.to_nat]. rewrite Nat.max_0_l. reflexivity.
Qed.

Lemma Zceil_negative (r : R) : r < 0 -> (Zceil r <= 0)%Z.
Proof.
  intros Hr. pose proof (Zceil_bound r) as [Hlo _].
  apply Z.lt_succ_r. apply lt_IZR. rewrite succ_IZR. lra.
Qed.

(** X7: a negative number of points gives no sample at all: the path is the
    body's own point alone, and the orbited body's position is not read. *)
Theorem getOrbitPath_negative h (b : loc) body (q : Point R) (r : R) :
  h !! b = Some body -> position body = Some q -> r < 0 ->
  getOrbitPath h b r
  = Some [ {| op_trueAnomaly := trueAnomaly body; op_x := x q; op_y := y q |} ].
Proof.
  intros Hb Hq Hr. pose proof (Zceil_negative r Hr) as Hc.
  unfold getOrbitPath. ideal.
  rewrite (d3_range_ideal_real r) by (lra || lia).
  replace (Z.to_nat (Zceil r)) with 0%nat by lia.
  cbn [seq map mapM mbind option_bind mret option_ret].
  rewrite Hb. cbn [mbind option_bind]. rewrite Hq. reflexivity.
Qed.

Lemma getOrbitPath_negative_witness :
  getOrbitPath Example.bodies 0%nat (- 12)
  = Some [ {| op_trueAnomaly := 0; op_x := 0; op_y := 0 |} ].
Proof.
  apply (getOrbitPath_negative Example.bodies 0%nat Example.sun (mkPoint 0 0) (- 12));
    [reflexivity | reflexivity | lra].
Defined.

Lemma sort_insert_head (a : OrbitPoint R) l :
  Forall (byTrueAnomaly a) l ->
  sort_insert (fun p1 p2 => op_trueAnomaly p1 - op_trueAnomaly p2) a l = a :: l.
Proof.
  intros Hl. destruct l as [|c l]; [reflexivity|].
  apply Forall_cons in Hl as [Hc _]. unfold byTrueAnomaly in Hc.
  cbn [sort_insert]. ideal.
  destruct (Rlt_dec 0 (op_trueAnomaly a - op_trueAnomaly c)); [lra|reflexivity].
Qed.

(** Sorting a sorted list with one more element at its end puts that
    element behind the elements not greater than it. *)
Lemma Array_sort_snoc (a : OrbitPoint R) l :
  StronglySorted byTrueAnomaly l ->
  exists l1 l2,
    l = l1 ++ l2
    /\ Forall (fun s => op_trueAnomaly s <= op_trueAnomaly a) l1
    /\ Forall (fun s => op_trueAnomaly a < op_trueAnomaly s) l2
    /\ Array_sort (fun p1 p2 => op_trueAnomaly p1 - op_trueAnomaly p2) (l ++ [a])
       = l1 ++ a :: l2.
Proof.
  induction 1 as [|s l Hl IH Hs].
  - exists [], []. repeat split; constructor.
  - destruct IH as (l1 & l2 & -> & H1 & H2 & Hsort).
    cbn [app Array_sort foldr]. fold (Array_sort (N := R)
      (fun p1 p2 => op_trueAnomaly p1 - op_trueAnomaly p2) ((l1 ++ l2) ++ [a])).
    rewrite Hsort.
    destruct (Rle_dec (op_trueAnomaly s) (op_trueAnomaly a)) as [Hle|Hgt].
    + exists (s :: l1), l2. split; [reflexivity|].
      split; [constructor; assumption|]. split; [exact H2|].
      apply sort_insert_head. apply Forall_app. apply Forall_app in Hs as [Hs1 Hs2].
      split; [exact Hs1|]. constructor.
      * unfold byTrueAnomaly. exact Hle.
      * exact Hs2.
    + assert (Hlt : op_trueAnomaly a < op_trueAnomaly s) by lra.
      assert (l1 = []) as ->.
      { destruct l1 as [|c l1]; [reflexivity|]. exfalso.
        apply Forall_cons in H1 as [Hc _]. apply Forall_cons in Hs as [Hsc _].
        unfold byTrueAnomaly in Hsc. lra. }
      exists [], (s :: l2). cbn [app] in *. split; [reflexivity|].
      split; [constructor|]. split; [constructor; assumption|].
      cbn [sort_insert]. ideal.
      destruct (Rlt_dec 0 (op_trueAnomaly s - op_trueAnomaly a)); [|lra].
      rewrite (sort_insert_head s l2 Hs). reflexivity.
Qed.

Lemma samples_sorted (f : R -> OrbitPoint R) (step : R) (len start : nat) :
  (forall t, op_trueAnomaly (f t) = t) -> 0 <= step ->
  StronglySorted byTrueAnomaly
    (map f (map (fun i : nat => 0 + IZR (Z.of_nat i) * step) (seq start len))).
Proof.
  intros Hf Hstep. revert start. induction len as [|len IH]; intros start.
  - constructor.
  - cbn [seq map]. constructor; [apply IH|].
    apply List.Forall_forall. intros pt Hin.
    apply in_map_iff in Hin as (t & <- & Hin).
    apply in_map_iff in Hin as (i & <- & Hin).
    apply in_seq in Hin. unfold byTrueAnomaly. rewrite !Hf.
    assert (IZR (Z.of_nat start) <= IZR (Z.of_nat i)) by (apply IZR_le; lia).
    nra.
Qed.

(** X8: in exact arithmetic, for any positive number of points [r], whole
    or not, the path is the [ceil r] samples at the true anomalies
    [i * 360 / r], in that order and all in [[0, 360)], with the body's own
    point put behind the samples whose true anomaly is not greater than the
    body's and before the others; it has [ceil r + 1] points. *)
Theorem getOrbitPath_shape h (b : loc) body (p q : Point R) (r : R) :
  h !! b = Some body -> orbitBody_position h body = Some p ->
  position body = Some q -> 0 < r -> (Zceil r < 2 ^ 31)%Z ->
  exists before after,
    getOrbitPath h b r
    = Some (before ++ {| op_trueAnomaly := trueAnomaly body;
                         op_x := x q; op_y := y q |} :: after)
    /\ map op_trueAnomaly (before ++ after)
       = map (fun i : nat => IZR (Z.of_nat i) * 360 / r)
             (seq 0 (Z.to_nat (Zceil r)))
    /\ Forall (fun pt => 0 <= op_trueAnomaly pt < 360
                 /\ getPositionForTrueAnomaly h b (op_trueAnomaly pt)
                    = Some {| x := op_x pt; y := op_y pt |}) (before ++ after)
    /\ Forall (fun pt => op_trueAnomaly pt <= trueAnomaly body) before
    /\ Forall (fun pt => trueAnomaly body < op_trueAnomaly pt) after
    /\ length (before ++ after) = Z.to_nat (Zceil r).
Proof.
  intros Hb Hp Hq Hr Hc.
  set (at_ := fun t : R =>
         {| op_trueAnomaly := t;
            op_x := getDistanceToFocusPoint body t * cos (t * DEG_TO_RAD)
                    / KM_TO_PX + x p;
            op_y := - getDistanceToFocusPoint body t * sin (t * DEG_TO_RAD)
                    / KM_TO_PX + y p |}).
  set (angles := map (fun i : nat => 0 + IZR (Z.of_nat i) * (360 / r))
                     (seq 0 (Z.to_nat (Zceil r)))).
  set (own := {| op_trueAnomaly := trueAnomaly body; op_x := x q; op_y := y q |}).
  assert (Hat : forall t, getPositionForTrueAnomaly h b t
                          = Some {| x := op_x (at_ t); y := op_y (at_ t) |}).
  { intros t. rewrite (getPositionForTrueAnomaly_unfold _ _ _ _ t Hb Hp).
    reflexivity. }
  assert (Hsorted : StronglySorted byTrueAnomaly (map at_ angles)).
  { apply samples_sorted; [reflexivity|]. apply div_nonneg; lra. }
  destruct (Array_sort_snoc own _ Hsorted) as (l1 & l2 & Hl & H1 & H2 & Hsort).
  exists l1, l2. rewrite <- Hl.
  split.
  { unfold getOrbitPath. ideal. rewrite (d3_range_ideal_real r) by (lra || lia).
    cbn [mbind option_bind]. fold angles.
    rewrite (mapM_total _ at_) by (intros t _; rewrite Hat; reflexivity).
    cbn [mbind option_bind]. rewrite Hb. cbn [mbind option_bind].
    rewrite Hq. cbn [mbind option_bind]. fold own. rewrite Hsort. reflexivity. }
  split.
  { unfold angles. rewrite !map_map. apply map_ext. intros i.
    cbn [op_trueAnomaly at_]. field. lra. }
  split.
  { unfold angles. apply List.Forall_forall. intros pt Hin.
    apply in_map_iff in Hin as (t & <- & Hin).
    apply in_map_iff in Hin as (i & <- & Hin). apply in_seq in Hin.
    split; [|apply Hat]. cbn [op_trueAnomaly at_].
    assert (Hi0 : 0 <= IZR (Z.of_nat i)) by (apply IZR_le; lia).
    assert (Hi1 : IZR (Z.of_nat i) + 1 <= IZR (Zceil r)).
    { rewrite <- succ_IZR. apply IZR_le. lia. }
    pose proof (Zceil_bound r) as [Hlo _].
    assert (Hir : IZR (Z.of_nat i) < r) by lra.
    replace (0 + IZR (Z.of_nat i) * (360 / r))
      with (360 * (IZR (Z.of_nat i) / r)) by (field; lra).
    assert (H2' : 0 <= IZR (Z.of_nat i) / r) by (apply div_nonneg; lra).
    assert (H3 : IZR (Z.of_nat i) / r < 1).
    { apply Rmult_lt_reg_r with r; [exact Hr|].
      replace (IZR (Z.of_nat i) / r * r) with (IZR (Z.of_nat i)) by (field; lra).
      lra. }
    lra. }
  split; [exact H1|]. split; [exact H2|].
  unfold angles. rewrite !length_map, length_seq. reflexivity.
Qed.

Lemma getOrbitPath_shape_witness :
  exists before after,
    getOrbitPath Example.placed 1%nat (5 / 2)
    = Some (before ++ {| op_trueAnomaly := 0; op_x := 3; op_y := -4 |} :: after)
    /\ length (before ++ after) = 3%nat.
Proof.
  assert (Hc : Zceil (5 / 2) = 3%Z) by (apply Zceil_eq; lra).
  destruct (getOrbitPath_shape Example.placed 1%nat _ (mkPoint 0 0) (mkPoint 3 (-4))
              (5 / 2) eq_refl eq_refl eq_refl ltac:(lra) ltac:(rewrite Hc; lia))
    as (before & after & Hpath & _ & _ & _ & _ & Hlen).
  exists before, after. split; [exact Hpath|].
  rewrite Hlen, Hc. reflexivity.
Defined.

End IdealPathShape.

Section Binary64Default.
Variable fpow : float -> Z -> float.
Variables fcbrt fcos fsin : float -> float.
Local Open Scope js_scope.

Let binary64 : JsNumber float := Binary64.number fpow fcbrt fcos fsin.
Local Existing Instance binary64.

Implicit Types (h : gmap loc (CelestialBody float)).

Lemma Forall2_anomalies h (b : loc) (angles : list float) result :
  Forall2 (fun t pt => exists point,
             getPositionForTrueAnomaly h b t = Some point
             /\ pt = {| op_trueAnomaly := t; op_x := x point; op_y := y point |})
          angles result ->
  map op_trueAnomaly result = angles.
Proof.
  induction 1 as [|t pt angles result (point & _ & ->) _ IH]; [reflexivity|].
  cbn [map op_trueAnomaly]. rewrite IH. reflexivity.
Qed.

(** X9: with the default number of points, in double precision, the step is
    exactly 1: a returned path has 361 points, and their true anomalies are
    the whole degrees 0, 1, ..., 359 and the body's own. *)
Theorem getOrbitPath_default_binary64 h (b : loc) path :
  getOrbitPath_default h b = Some path ->
  exists body,
    h !! b = Some body
    /\ length path = 361%nat
    /\ map op_trueAnomaly path
       ≡ₚ map (fun i : nat => Binary64.of_int (Z.of_nat i)) (seq 0 360)
          ++ [trueAnomaly body].
Proof.
  unfold getOrbitPath_default. intros Hp.
  destruct (getOrbitPath_inv _ _ _ _ Hp)
    as (angles & result & body & q & Ha & Hres & Hb & Hq & ->).
  assert (Hangles : angles = map (fun i : nat => Binary64.of_int (Z.of_nat i))
                                 (seq 0 360)).
  { assert (Hr : d3_range #0 #360 (#360 / #360)
                 = Some (map (fun i : nat => Binary64.of_int (Z.of_nat i))
                             (seq 0 360))) by (vm_compute; reflexivity).
    rewrite Hr in Ha. injection Ha as <-. reflexivity. }
  apply Forall2_anomalies in Hres.
  exists body. split; [exact Hb|].
  assert (Hperm : map op_trueAnomaly
                    (Array_sort (fun p1 p2 => op_trueAnomaly p1 - op_trueAnomaly p2)
                       (result ++ [ {| op_trueAnomaly := trueAnomaly body;
                                       op_x := x q; op_y := y q |} ]))
                  ≡ₚ angles ++ [trueAnomaly body]).
  { rewrite (Permutation_map _ (Array_sort_perm _ _)), map_app, Hres.
    reflexivity. }
  split.
  - rewrite <- (length_map op_trueAnomaly), (Permutation_length Hperm), Hangles.
    rewrite length_app, length_map, length_seq. reflexivity.
  - rewrite Hperm, Hangles. reflexivity.
Qed.

(** X10: for 0 points, in double precision, [360 / 0] is infinite and
    [360 / (360 / 0)] is 0: nothing throws, there is no sample, and the path
    is the body's own point alone. *)
Theorem getOrbitPath_zero_binary64 h (b : loc) body (q : Point float) :
  h !! b = Some body -> position body = Some q ->
  getOrbitPath h b #0
  = Some [ {| op_trueAnomaly := trueAnomaly body; op_x := x q; op_y := y q |} ].
Proof.
  intros Hb Hq. unfold getOrbitPath.
  assert (Hr : d3_range #0 #360 (#360 / #0) = Some [])
    by (vm_compute; reflexivity).
  rewrite Hr. cbn [mbind option_bind mapM mret option_ret].
  rewrite Hb. cbn [mbind option_bind]. rewrite Hq. reflexivity.
Qed.

End Binary64Default.

Section Binary64Examples.
Local Existing Instance Example64.engine.

Lemma getOrbitPath_default_binary64_witness :
  exists path,
    getOrbitPath_default Example64.bodies 1%nat = Some path
    /\ length path = 361%nat.
Proof.
  destruct (getOrbitPath_default Example64.bodies 1%nat) as [path|] eqn:Hp.
  - exists path. split; [reflexivity|].
    destruct (getOrbitPath_default_binary64 _ _ _ _ _ _ _ Hp) as (body & _ & Hl & _).
    exact Hl.
  - vm_compute in Hp. discriminate Hp.
Defined.

Lemma getOrbitPath_zero_binary64_witness :
  getOrbitPath Example64.bodies 1%nat (ofZ 0)
  = Some [ {| op_trueAnomaly := 358.625%float;
              op_x := 1495.5%float; op_y := 36.25%float |} ].
Proof.
  exact (getOrbitPath_zero_binary64 _ _ _ _ Example64.bodies 1%nat Example64.earth
           _ eq_refl eq_refl).
Defined.

End Binary64Examples.

(** ** The ellipse of a nearly circular orbit in double precision *)

Section Binary64Ellipse.
Variable fpow : float -> Z -> float.
Variables fcbrt fcos fsin : float -> float.

Let binary64 : JsNumber float := Binary64.number fpow fcbrt fcos fsin.
Local Existing Instance binary64.

(** For every engine whose [x ** 2] is the rounded product [x * x] at the
    two numbers squared: with [a = 149598023] and [e = 1e-9], [1 - e ** 2]
    rounds to 1 and the two radii are one and the same double. *)
#[warnings="-inexact-float"]
Lemma getOrbitEllipse_radii_binary64_engine :
  fpow 149598023%float 2 = PrimFloat.mul 149598023%float 149598023%float ->
  fpow 1e-9%float 2 = PrimFloat.mul 1e-9%float 1e-9%float ->
  exists el,
    getOrbitEllipse Example64.nearly_circular_bodies 1%nat = Some el
    /\ rx el = 1495.98023%float /\ ry el = 1495.98023%float.
Proof.
  intros Ha He. eexists. split.
  - unfold getOrbitEllipse. cbn [mbind option_bind]. reflexivity.
  - cbn [rx ry ofZ pow mul sub div Math_sqrt binary64 Binary64.number
         semiMajorAxis eccentricity Example64.nearly_circular].
    rewrite Ha, He. split; vm_compute; reflexivity.
Qed.

End Binary64Ellipse.

Section Binary64EllipseExample.
Local Existing Instance Example64.engine.

(** C10, as the code runs: with [a = 149598023 > 0] and [0 < e = 1e-9 < 1]
    the ellipse has [ry = rx = 1495.98023], and the eccentricity is not 0. *)
#[warnings="-inexact-float"]
Lemma getOrbitEllipse_radii_binary64 :
  PrimFloat.ltb 0 (semiMajorAxis Example64.nearly_circular) = true
  /\ PrimFloat.ltb 0 (eccentricity Example64.nearly_circular) = true
  /\ PrimFloat.ltb (eccentricity Example64.nearly_circular) 1 = true
  /\ exists el,
       getOrbitEllipse Example64.nearly_circular_bodies 1%nat = Some el
       /\ rx el = 1495.98023%float
       /\ ~ (ry el = rx el <-> eccentricity Example64.nearly_circular = 0%float).
Proof.
  split; [reflexivity|]. split; [reflexivity|]. split; [reflexivity|].
  eexists. split; [vm_compute; reflexivity|]. split; [reflexivity|].
  cbn [rx ry]. intros [Hzero _].
  specialize (Hzero eq_refl). apply (f_equal Prim2SF) in Hzero.
  vm_compute in Hzero. discriminate Hzero.
Qed.

End Binary64EllipseExample.

(** * More on the libration solver *)

Section LibrationShape.
Import Ideal.
Local Open Scope R_scope.
Variables SUN EARTH : loc.

Implicit Types (h : gmap loc (CelestialBody R)) (pos : Point R).

Lemma sixty_degrees :
  cos (60 * DEG_TO_RAD) = 1 / 2 /\ sin (60 * DEG_TO_RAD) = sqrt 3 / 2
  /\ cos (- 60 * DEG_TO_RAD) = 1 / 2 /\ sin (- 60 * DEG_TO_RAD) = - (sqrt 3 / 2).
Proof.
  rewrite !DEG_TO_RAD_radians.
  replace (60 * PI / 180) with (PI / 3) by field.
  replace (- 60 * PI / 180) with (- (PI / 3)) by field.
  rewrite cos_neg, sin_neg, cos_PI3, sin_PI3. auto.
Qed.

(** X11: wherever the earth is but at the origin, it is the midpoint of L1
    and L2, and both are at the distance [|r|] from it, with
    [r = d cbrt (m_earth / (3 m_sun))] and [d] the earth's distance to the
    origin. *)
Theorem getEarthLagrangePoints_midpoint h (earth sun : CelestialBody R) pos :
  h !! EARTH = Some earth -> h !! SUN = Some sun -> position earth = Some pos ->
  (x pos, y pos) <> (0, 0) ->
  let d := sqrt (x pos ^ 2 + y pos ^ 2) in
  let r := d * cbrt (mass earth / (3 * mass sun)) in
  exists l1 l2 l3 l4 l5,
    getEarthLagrangePoints SUN EARTH h = Some (l1, l2, l3, l4, l5)
    /\ (lp_x l1 + lp_x l2) / 2 = x pos
    /\ (lp_y l1 + lp_y l2) / 2 = y pos
    /\ sqrt ((lp_x l1 - x pos) ^ 2 + (lp_y l1 - y pos) ^ 2) = Rabs r
    /\ sqrt ((lp_x l2 - x pos) ^ 2 + (lp_y l2 - y pos) ^ 2) = Rabs r.
Proof.
  intros He Hs Hp Hne d r. pose proof (norm_pos _ _ Hne) as Hd. fold d in Hd.
  do 5 eexists. split; [apply (getEarthLagrangePoints_eq _ _ _ _ _ _ He Hs Hp)|].
  fold d. fold r. cbn [lp_x lp_y].
  split; [field; lra|]. split; [field; lra|]. split.
  - rewrite <- (Rabs_Ropp r), <- (norm_scaled (x pos) (y pos) (- r) Hd). fold d.
    f_equal. field. lra.
  - rewrite <- (norm_scaled (x pos) (y pos) r Hd). fold d.
    f_equal. field. lra.
Qed.

(** X12: L4 and L5 each make an equilateral triangle with the origin and
    the earth: they are as far from the earth as the earth is from the
    origin, and [sqrt 3] times that far from each other. *)
Theorem getEarthLagrangePoints_equilateral h (earth sun : CelestialBody R) pos :
  h !! EARTH = Some earth -> h !! SUN = Some sun -> position earth = Some pos ->
  exists l1 l2 l3 l4 l5,
    getEarthLagrangePoints SUN EARTH h = Some (l1, l2, l3, l4, l5)
    /\ sqrt ((lp_x l4 - x pos) ^ 2 + (lp_y l4 - y pos) ^ 2)
       = sqrt (x pos ^ 2 + y pos ^ 2)
    /\ sqrt ((lp_x l5 - x pos) ^ 2 + (lp_y l5 - y pos) ^ 2)
       = sqrt (x pos ^ 2 + y pos ^ 2)
    /\ sqrt ((lp_x l4 - lp_x l5) ^ 2 + (lp_y l4 - lp_y l5) ^ 2)
       = sqrt 3 * sqrt (x pos ^ 2 + y pos ^ 2).
Proof.
  intros He Hs Hp.
  do 5 eexists. split; [apply (getEarthLagrangePoints_eq _ _ _ _ _ _ He Hs Hp)|].
  cbn [lp_x lp_y]. destruct sixty_degrees as (-> & -> & -> & ->).
  assert (H3 : sqrt 3 ^ 2 = 3).
  { simpl. rewrite Rmult_1_r. apply sqrt_sqrt. lra. }
  split; [|split].
  - f_equal. field_simplify. rewrite H3. field.
  - f_equal. field_simplify. rewrite H3. field.
  - rewrite <- sqrt_mult by (try lra; nra). f_equal. field_simplify.
    rewrite H3. field.
Qed.

(** X13: for positive masses with [7 m_earth <= 12 m_sun] and the earth off
    the origin, the collinear points are ordered along the line through the
    origin and the earth: L1 between the origin and the earth, L2 beyond the
    earth, L3 on the other side of the origin, no farther from it than the
    earth. *)
Theorem getEarthLagrangePoints_order h (earth sun : CelestialBody R) pos :
  h !! EARTH = Some earth -> h !! SUN = Some sun -> position earth = Some pos ->
  (x pos, y pos) <> (0, 0) ->
  0 < mass sun -> 0 < mass earth -> 7 * mass earth <= 12 * mass sun ->
  exists l1 l2 l3 l4 l5 k1 k2 k3,
    getEarthLagrangePoints SUN EARTH h = Some (l1, l2, l3, l4, l5)
    /\ 0 <= k1 <= 1 /\ 1 <= k2 /\ 0 <= k3 <= 1
    /\ lp_x l1 = k1 * x pos /\ lp_y l1 = k1 * y pos
    /\ lp_x l2 = k2 * x pos /\ lp_y l2 = k2 * y pos
    /\ lp_x l3 = - k3 * x pos /\ lp_y l3 = - k3 * y pos.
Proof.
  intros He Hs Hp Hne Hms Hme Hratio. pose proof (norm_pos _ _ Hne) as Hd.
  set (d := sqrt (x pos ^ 2 + y pos ^ 2)) in *.
  set (c := cbrt (mass earth / (3 * mass sun))).
  set (c' := 7 * mass earth / (12 * mass sun)).
  assert (Hc : 0 <= c <= 1).
  { apply cbrt_unit. split; [apply div_nonneg; lra|].
    apply Rmult_le_reg_r with (3 * mass sun); [lra|]. field_simplify; lra. }
  assert (Hc' : 0 <= c' <= 1).
  { split; [apply div_nonneg; lra|].
    apply Rmult_le_reg_r with (12 * mass sun); [lra|].
    unfold c'. field_simplify; lra. }
  do 5 eexists. exists (1 - c), (1 + c), (1 - c').
  split; [apply (getEarthLagrangePoints_eq _ _ _ _ _ _ He Hs Hp)|].
  fold d. fold c. fold c'. cbn [lp_x lp_y].
  split; [lra|]. split; [lra|]. split; [lra|].
  repeat split; field; lra.
Qed.

End LibrationShape.

Section LibrationShapeExamples.
Import Ideal.
Local Open Scope R_scope.

Lemma getEarthLagrangePoints_midpoint_witness :
  exists l1 l2 l3 l4 l5,
    getEarthLagrangePoints 0%nat 1%nat Example.placed = Some (l1, l2, l3, l4, l5)
    /\ (lp_x l1 + lp_x l2) / 2 = 3.
Proof.
  assert (Hne : ((3, -4) : R * R) <> (0, 0)) by (intros [= H3 H4]; lra).
  destruct (getEarthLagrangePoints_midpoint 0%nat 1%nat Example.placed _ _
              (mkPoint 3 (-4)) eq_refl eq_refl eq_refl Hne)
    as (l1 & l2 & l3 & l4 & l5 & Hget & Hx & _).
  exists l1, l2, l3, l4, l5. split; [exact Hget | exact Hx].
Defined.

Lemma getEarthLagrangePoints_equilateral_witness :
  exists l1 l2 l3 l4 l5,
    getEarthLagrangePoints 0%nat 1%nat Example.placed = Some (l1, l2, l3, l4, l5)
    /\ sqrt ((lp_x l4 - 3) ^ 2 + (lp_y l4 - -4) ^ 2) = sqrt (3 ^ 2 + (-4) ^ 2).
Proof.
  destruct (getEarthLagrangePoints_equilateral 0%nat 1%nat Example.placed _ _
              (mkPoint 3 (-4)) eq_refl eq_refl eq_refl)
    as (l1 & l2 & l3 & l4 & l5 & Hget & H4 & _).
  exists l1, l2, l3, l4, l5. split; [exact Hget | exact H4].
Defined.

Lemma getEarthLagrangePoints_order_witness :
  exists l1 l2 l3 l4 l5 k1,
    getEarthLagrangePoints 0%nat 1%nat Example.placed = Some (l1, l2, l3, l4, l5)
    /\ 0 <= k1 <= 1 /\ lp_x l1 = k1 * 3.
Proof.
  assert (Hne : ((3, -4) : R * R) <> (0, 0)) by (intros [= H3 H4]; lra).
  destruct (getEarthLagrangePoints_order 0%nat 1%nat Example.placed _ _
              (mkPoint 3 (-4)) eq_refl eq_refl eq_refl Hne
              ltac:(simpl; lra) ltac:(simpl; lra) ltac:(simpl; lra))
    as (l1 & l2 & l3 & l4 & l5 & k1 & k2 & k3 & Hget & Hk1 & _ & _ & Hx & _).
  exists l1, l2, l3, l4, l5, k1. auto.
Defined.

End LibrationShapeExamples.

(** * More on the constructor *)

Section ConstructorFacts.
Context {N : Type} {num : JsNumber N}.
Variable SOLAR_SYSTEM : list loc.
Variables SUN EARTH : loc.

Implicit Types (body : CelestialBody N) (h : gmap loc (CelestialBody N)).

Lemma sameElements_refl body : sameElements body body.
Proof. repeat split. Qed.

Lemma sameElements_trans body1 body2 body3 :
  sameElements body1 body2 -> sameElements body2 body3 -> sameElements body1 body3.
Proof.
  unfold sameElements. intros (? & ? & ? & ? & ? & ?) (? & ? & ? & ? & ? & ?).
  repeat split; congruence.
Qed.

Lemma sameBodies_trans (o1 o2 o3 : option (CelestialBody N)) :
  option_Forall2 sameElements o1 o2 -> option_Forall2 sameElements o2 o3 ->
  option_Forall2 sameElements o1 o3.
Proof.
  intros H12 H23. destruct H12 as [b1 b2 H12|]; inversion H23; subst; constructor.
  eapply sameElements_trans; eassumption.
Qed.

Lemma sameBodies_refl (o : option (CelestialBody N)) :
  option_Forall2 sameElements o o.
Proof. destruct o; constructor. apply sameElements_refl. Qed.

Lemma initBody_elements h (b : loc) h1 (c : loc) :
  initBody h b = Some h1 -> option_Forall2 sameElements (h !! c) (h1 !! c).
Proof.
  intros Hi. destruct (decide (c = b)) as [->|Hne].
  - destruct (initBody_inv _ _ _ Hi) as (body & p & Hb & _ & _).
    destruct (initBody_same _ _ _ _ Hi Hb) as (q & ->). rewrite Hb.
    constructor. repeat split.
  - rewrite (initBody_other _ _ _ _ Hi Hne). apply sameBodies_refl.
Qed.

Lemma forEach_initBody_elements (l : list loc) :
  forall h h' (c : loc),
    forEach initBody l h = Some h' ->
    option_Forall2 sameElements (h !! c) (h' !! c).
Proof.
  induction l as [|b l IH]; intros h h' c Hf.
  - injection Hf as <-. apply sameBodies_refl.
  - cbn [forEach] in Hf.
    destruct (initBody h b) as [h1|] eqn:Hi; [|discriminate].
    cbn [mbind option_bind] in Hf.
    eapply sameBodies_trans; [apply (initBody_elements _ _ _ _ Hi)|].
    apply (IH _ _ _ Hf).
Qed.

Lemma constructor_inv h h' :
  SceneService_constructor SOLAR_SYSTEM SUN EARTH h = Some h' ->
  exists h1 points earth,
    forEach initBody (List.filter (notSun h) SOLAR_SYSTEM) h = Some h1
    /\ getEarthLagrangePoints SUN EARTH h1 = Some points
    /\ h1 !! EARTH = Some earth
    /\ h' = <[ EARTH := set_lagrangePoints points earth ]> h1.
Proof.
  unfold SceneService_constructor. intros Hc.
  destruct (forEach initBody _ h) as [h1|] eqn:Hf; [|discriminate].
  cbn [mbind option_bind] in Hc.
  destruct (getEarthLagrangePoints SUN EARTH h1) as [points|] eqn:Hg; [|discriminate].
  cbn [mbind option_bind] in Hc.
  destruct (h1 !! EARTH) as [earth|] eqn:He; [|discriminate].
  cbn [mbind option_bind] in Hc. injection Hc as <-.
  exists h1, points, earth. split; [reflexivity|]. split; [exact Hg|].
  split; [exact He | reflexivity].
Qed.

(** X14: the constructor keeps the catalog's data: every body is still
    there afterwards, no body is added, and the id, mass, semi-major axis,
    eccentricity, mean anomaly and orbited body of each are what they
    were. *)
Theorem constructor_keeps_elements h h' (c : loc) :
  SceneService_constructor SOLAR_SYSTEM SUN EARTH h = Some h' ->
  option_Forall2 sameElements (h !! c) (h' !! c).
Proof.
  intros Hc. destruct (constructor_inv _ _ Hc) as (h1 & points & earth & Hf & _ & He & ->).
  eapply sameBodies_trans; [apply (forEach_initBody_elements _ _ _ c Hf)|].
  destruct (decide (c = EARTH)) as [->|Hne].
  - rewrite lookup_insert_eq, He. constructor. repeat split.
  - rewrite lookup_insert_ne by congruence. apply sameBodies_refl.
Qed.

Lemma initBody_anomaly h (b : loc) h1 :
  initBody h b = Some h1 ->
  exists body, h1 !! b = Some body
    /\ trueAnomaly body = meanAnomaly body /\ is_Some (position body).
Proof.
  intros Hi. destruct (initBody_inv _ _ _ Hi) as (body & p & Hb & _ & _).
  destruct (initBody_same _ _ _ _ Hi Hb) as (q & Hq).
  eexists. split; [exact Hq|]. split; [reflexivity | eexists; reflexivity].
Qed.

Lemma forEach_initBody_anomaly (l : list loc) :
  forall h h' (c : loc),
    forEach initBody l h = Some h' ->
    c ∈ l \/ (exists body, h !! c = Some body
               /\ trueAnomaly body = meanAnomaly body /\ is_Some (position body)) ->
    exists body, h' !! c = Some body
      /\ trueAnomaly body = meanAnomaly body /\ is_Some (position body).
Proof.
  induction l as [|b l IH]; intros h h' c Hf Hc.
  - injection Hf as <-. destruct Hc as [Hc|Hc]; [|exact Hc].
    apply elem_of_nil in Hc. contradiction.
  - cbn [forEach] in Hf.
    destruct (initBody h b) as [h1|] eqn:Hi; [|discriminate].
    cbn [mbind option_bind] in Hf. apply (IH _ _ _ Hf).
    destruct (decide (c = b)) as [->|Hne].
    + right. apply (initBody_anomaly _ _ _ Hi).
    + destruct Hc as [Hc|Hc].
      * left. apply elem_of_cons in Hc as [Hc|Hc]; [contradiction|exact Hc].
      * right. rewrite (initBody_other _ _ _ _ Hi Hne). exact Hc.
Qed.

Lemma notSun_id h (b : loc) body :
  h !! b = Some body -> id body <> "sun"%string -> notSun h b = true.
Proof.
  intros Hb Hid. unfold notSun. rewrite Hb.
  destruct (String.eqb_spec (id body) "sun"%string); [contradiction|reflexivity].
Qed.

Lemma constructor_listed h h' (b : loc) body' :
  SceneService_constructor SOLAR_SYSTEM SUN EARTH h = Some h' ->
  b ∈ SOLAR_SYSTEM -> h' !! b = Some body' -> id body' <> "sun"%string ->
  b ∈ List.filter (notSun h) SOLAR_SYSTEM.
Proof.
  intros Hc Hin Hb Hid.
  apply list_elem_of_In, filter_In. split; [apply list_elem_of_In; exact Hin|].
  destruct (constructor_inv _ _ Hc) as (h1 & points & earth & Hf & _ & He & ->).
  assert (Hb1 : exists body1, h1 !! b = Some body1 /\ id body1 = id body').
  { destruct (decide (b = EARTH)) as [->|Hne].
    - rewrite lookup_insert_eq in Hb. injection Hb as <-. exists earth. auto.
    - rewrite lookup_insert_ne in Hb by congruence. exists body'. auto. }
  destruct Hb1 as (body1 & Hb1 & Hid1).
  pose proof (forEach_initBody_elements _ _ _ b Hf) as Hsame.
  rewrite Hb1 in Hsame. inversion Hsame as [body0 ? Hel Hb0|]; subst.
  symmetry in Hb0. apply (notSun_id _ _ _ Hb0).
  destruct Hel as (Hid0 & _). congruence.
Qed.

(** X15: after the constructor every catalog body other than the sun has a
    position and has its true anomaly equal to its mean anomaly, in whatever
    order the catalog lists the bodies. *)
Theorem constructor_anomaly h h' (b : loc) body :
  SceneService_constructor SOLAR_SYSTEM SUN EARTH h = Some h' ->
  b ∈ SOLAR_SYSTEM -> h' !! b = Some body -> id body <> "sun"%string ->
  trueAnomaly body = meanAnomaly body /\ is_Some (position body).
Proof.
  intros Hc Hin Hb Hid.
  pose proof (constructor_listed _ _ _ _ Hc Hin Hb Hid) as Hl.
  destruct (constructor_inv _ _ Hc) as (h1 & points & earth & Hf & _ & He & ->).
  destruct (forEach_initBody_anomaly _ _ _ b Hf (or_introl Hl))
    as (body1 & Hb1 & Ht & Hp).
  destruct (decide (b = EARTH)) as [->|Hne].
  - rewrite lookup_insert_eq in Hb. injection Hb as <-.
    rewrite He in Hb1. injection Hb1 as <-. auto.
  - rewrite lookup_insert_ne in Hb by congruence.
    rewrite Hb in Hb1. injection Hb1 as <-. auto.
Qed.

Lemma forEach_initBody_other (l : list loc) :
  forall h h' (c : loc),
    forEach initBody l h = Some h' -> c ∉ l -> h' !! c = h !! c.
Proof.
  induction l as [|b l IH]; intros h h' c Hf Hc.
  - injection Hf as <-. reflexivity.
  - cbn [forEach] in Hf.
    destruct (initBody h b) as [h1|] eqn:Hi; [|discriminate].
    cbn [mbind option_bind] in Hf. apply not_elem_of_cons in Hc as [Hne Hc].
    rewrite (IH _ _ _ Hf Hc). apply (initBody_other _ _ _ _ Hi Hne).
Qed.

(** X16: the constructor moves nothing else: a body with id ['sun'], or a
    body that is not in the catalog, keeps its position and its true
    anomaly. *)
Theorem constructor_leaves h h' (c : loc) body :
  SceneService_constructor SOLAR_SYSTEM SUN EARTH h = Some h' ->
  h !! c = Some body -> c ∉ SOLAR_SYSTEM \/ id body = "sun"%string ->
  exists body', h' !! c = Some body'
    /\ position body' = position body /\ trueAnomaly body' = trueAnomaly body.
Proof.
  intros Hc Hb Hout.
  assert (Hnl : c ∉ List.filter (notSun h) SOLAR_SYSTEM).
  { intros Hin. apply list_elem_of_In, filter_In in Hin as [Hin Hns].
    destruct Hout as [Hout|Hid].
    - apply Hout, list_elem_of_In, Hin.
    - unfold notSun in Hns. rewrite Hb, Hid in Hns. discriminate. }
  destruct (constructor_inv _ _ Hc) as (h1 & points & earth & Hf & _ & He & ->).
  pose proof (forEach_initBody_other _ _ _ c Hf Hnl) as H1. rewrite Hb in H1.
  destruct (decide (c = EARTH)) as [->|Hne].
  - rewrite lookup_insert_eq. rewrite He in H1. injection H1 as ->.
    eexists. split; [reflexivity|]. split; reflexivity.
  - rewrite lookup_insert_ne by congruence. exists body. auto.
Qed.

Lemma getEarthLagrangePoints_set h earth points :
  h !! EARTH = Some earth ->
  getEarthLagrangePoints SUN EARTH (<[ EARTH := set_lagrangePoints points earth ]> h)
  = getEarthLagrangePoints SUN EARTH h.
Proof.
  intros He. unfold getEarthLagrangePoints.
  rewrite lookup_insert_eq, He. cbn [mbind option_bind].
  destruct (decide (SUN = EARTH)) as [->|Hne].
  - rewrite lookup_insert_eq, He. reflexivity.
  - rewrite lookup_insert_ne by congruence. reflexivity.
Qed.

Lemma forEach_initBody_lagrangePoints (l : list loc) :
  forall h h' (c : loc),
    forEach initBody l h = Some h' ->
    (h' !! c) ≫= lagrangePoints = (h !! c) ≫= lagrangePoints.
Proof.
  induction l as [|b l IH]; intros h h' c Hf.
  - injection Hf as <-. reflexivity.
  - cbn [forEach] in Hf.
    destruct (initBody h b) as [h1|] eqn:Hi; [|discriminate].
    cbn [mbind option_bind] in Hf. rewrite (IH _ _ _ Hf).
    destruct (decide (c = b)) as [->|Hne].
    + destruct (initBody_inv _ _ _ Hi) as (body & p & Hb & _ & _).
      destruct (initBody_same _ _ _ _ Hi Hb) as (q & ->). rewrite Hb. reflexivity.
    + rewrite (initBody_other _ _ _ _ Hi Hne). reflexivity.
Qed.

(** X17: after the constructor the earth carries Lagrange points, and they
    are those of the final state: [getEarthLagrangePoints] called again
    returns the same five points.  No other body's Lagrange points
    change. *)
Theorem constructor_lagrangePoints h h' :
  SceneService_constructor SOLAR_SYSTEM SUN EARTH h = Some h' ->
  exists earth points,
    h' !! EARTH = Some earth
    /\ lagrangePoints earth = Some points
    /\ getEarthLagrangePoints SUN EARTH h' = Some points
    /\ forall c : loc, c <> EARTH ->
         (h' !! c) ≫= lagrangePoints = (h !! c) ≫= lagrangePoints.
Proof.
  intros Hc. destruct (constructor_inv _ _ Hc) as (h1 & points & earth & Hf & Hg & He & ->).
  exists (set_lagrangePoints points earth), points.
  split; [apply lookup_insert_eq|]. split; [reflexivity|].
  split; [rewrite (getEarthLagrangePoints_set _ _ _ He); exact Hg|].
  intros c Hne. rewrite lookup_insert_ne by congruence.
  apply (forEach_initBody_lagrangePoints _ _ _ c Hf).
Qed.

Lemma initBody_needs h (b : loc) h1 :
  initBody h b = Some h1 -> exists p, parentOf h b = Some p /\ is_Some (h !! p).
Proof.
  intros Hi. destruct (initBody_inv _ _ _ Hi) as (body & q & Hb & Hq & _).
  cbn zeta in Hq. unfold getPositionForTrueAnomaly in Hq.
  rewrite lookup_insert_eq in Hq. cbn [mbind option_bind] in Hq.
  unfold orbitBody_position in Hq. cbn [orbitBody set_trueAnomaly] in Hq.
  unfold parentOf. rewrite Hb. cbn [mbind option_bind].
  destruct (orbitBody body) as [p|]; [|discriminate].
  exists p. split; [reflexivity|]. cbn [mbind option_bind] in Hq.
  destruct (decide (p = b)) as [->|Hne]; [rewrite Hb; eauto|].
  rewrite lookup_insert_ne in Hq by congruence.
  destruct (h !! p); [eauto|discriminate].
Qed.

Lemma forEach_initBody_needs (l : list loc) :
  forall h h' (b : loc),
    forEach initBody l h = Some h' -> b ∈ l ->
    exists p, parentOf h b = Some p /\ is_Some (h !! p).
Proof.
  induction l as [|c l IH]; intros h h' b Hf Hb.
  - apply elem_of_nil in Hb. contradiction.
  - cbn [forEach] in Hf.
    destruct (initBody h c) as [h1|] eqn:Hi; [|discriminate].
    cbn [mbind option_bind] in Hf.
    apply elem_of_cons in Hb as [->|Hb]; [apply (initBody_needs _ _ _ Hi)|].
    destruct (IH _ _ _ Hf Hb) as (p & Hp & Hsome). exists p.
    rewrite (initBody_parentOf _ _ _ _ Hi) in Hp. split; [exact Hp|].
    pose proof (initBody_elements _ _ _ p Hi) as Hsame.
    destruct Hsame; [eauto|]. destruct Hsome as [? [=]].
Qed.

(** X18: what the constructor needs: when it returns, every catalog body
    other than the sun orbits a body that exists, and the sun and the earth
    exist; a catalog body other than the sun without an orbited body makes it
    throw. *)
Theorem constructor_needs h h' :
  SceneService_constructor SOLAR_SYSTEM SUN EARTH h = Some h' ->
  (forall b : loc, b ∈ SOLAR_SYSTEM -> notSun h b = true ->
     exists p, parentOf h b = Some p /\ is_Some (h !! p))
  /\ is_Some (h !! SUN) /\ is_Some (h !! EARTH).
Proof.
  intros Hc. destruct (constructor_inv _ _ Hc) as (h1 & points & earth & Hf & Hg & He & ->).
  split; [|split].
  - intros b Hin Hns. apply (forEach_initBody_needs _ _ _ b Hf).
    apply list_elem_of_In, filter_In. split; [apply list_elem_of_In; exact Hin|exact Hns].
  - pose proof (forEach_initBody_elements _ _ _ SUN Hf) as Hsame.
    unfold getEarthLagrangePoints in Hg. rewrite He in Hg.
    cbn [mbind option_bind] in Hg.
    destruct Hsame; [eauto|discriminate].
  - pose proof (forEach_initBody_elements _ _ _ EARTH Hf) as Hsame.
    rewrite He in Hsame. inversion Hsame. eauto.
Qed.

Lemma constructor_settled h h' (b : loc) :
  SceneService_constructor SOLAR_SYSTEM SUN EARTH h = Some h' ->
  primaryFirst h (List.filter (notSun h) SOLAR_SYSTEM) = true ->
  b ∈ List.filter (notSun h) SOLAR_SYSTEM ->
  settled h' b.
Proof.
  intros Hc Hpf Hin.
  destruct (constructor_inv _ _ Hc) as (h1 & points & earth & Hf & _ & He & ->).
  apply (settled_agree h1).
  - apply (forEach_initBody_settled _ _ _ Hf Hpf). left. exact Hin.
  - intros body1 Hb1. destruct (decide (b = EARTH)) as [->|Hne].
    + rewrite He in Hb1. injection Hb1 as <-.
      rewrite lookup_insert_eq. eexists. split; [reflexivity|]. auto 10.
    + rewrite lookup_insert_ne by congruence. exists body1. auto 10.
  - intros p _. destruct (decide (p = EARTH)) as [->|Hne].
    + rewrite lookup_insert_eq, He. reflexivity.
    + rewrite lookup_insert_ne by congruence. reflexivity.
Qed.

End ConstructorFacts.

Section ConstructorPlaces.
Import Ideal.
Local Open Scope R_scope.
Variable SOLAR_SYSTEM : list loc.
Variables SUN EARTH : loc.

Implicit Types (body : CelestialBody R) (h : gmap loc (CelestialBody R)).

(** X19: after the constructor has run over a catalog in primary-first
    order, every catalog body other than the sun sits at the polar offset of
    its mean anomaly from the final position of the body it orbits: a moon
    is placed around where its planet has been put. *)
Theorem constructor_places h h' (b : loc) body :
  SceneService_constructor SOLAR_SYSTEM SUN EARTH h = Some h' ->
  primaryFirst h (List.filter (notSun h) SOLAR_SYSTEM) = true ->
  b ∈ SOLAR_SYSTEM -> h' !! b = Some body -> id body <> "sun"%string ->
  exists (parent : loc) (pp : Point R),
    orbitBody body = Some parent
    /\ (h' !! parent) ≫= position = Some pp
    /\ position body
       = Some {| x := getDistanceToFocusPoint body (meanAnomaly body)
                      * cos (meanAnomaly body * PI / 180) / 100000 + x pp;
                 y := - (getDistanceToFocusPoint body (meanAnomaly body)
                         * sin (meanAnomaly body * PI / 180)) / 100000 + y pp |}.
Proof.
  intros Hc Hpf Hin Hb Hid.
  pose proof (constructor_listed _ _ _ _ _ _ _ Hc Hin Hb Hid) as Hl.
  destruct (constructor_settled _ _ _ _ _ _ Hc Hpf Hl) as (body0 & p & Hb0 & Hp & Hg).
  rewrite Hb in Hb0. injection Hb0 as <-.
  assert (Ht : trueAnomaly body = meanAnomaly body).
  { destruct (constructor_inv _ _ _ _ _ Hc) as (h1 & points & earth & Hf & _ & He & ->).
    destruct (forEach_initBody_anomaly _ _ _ b Hf (or_introl Hl))
      as (body1 & Hb1 & Ht & _).
    destruct (decide (b = EARTH)) as [->|Hne].
    - rewrite lookup_insert_eq in Hb. injection Hb as <-.
      rewrite He in Hb1. injection Hb1 as <-. exact Ht.
    - rewrite lookup_insert_ne in Hb by congruence.
      rewrite Hb in Hb1. injection Hb1 as <-. exact Ht. }
  rewrite Ht in Hg.
  destruct (orbitBody_position h' body) as [pp|] eqn:Hpp.
  - rewrite (getPositionForTrueAnomaly_unfold _ _ _ _ _ Hb Hpp) in Hg.
    unfold orbitBody_position in Hpp.
    destruct (orbitBody body) as [parent|]; [|discriminate].
    cbn [mbind option_bind] in Hpp.
    exists parent, pp. split; [reflexivity|]. split; [exact Hpp|].
    rewrite Hp, <- Hg. unfold KM_TO_PX. ideal. rewrite !DEG_TO_RAD_radians.
    apply f_equal. apply (f_equal2 mkPoint); field.
  - unfold getPositionForTrueAnomaly in Hg. rewrite Hb in Hg.
    cbn [mbind option_bind] in Hg. rewrite Hpp in Hg. discriminate.
Qed.

End ConstructorPlaces.

Section ConstructorExamples.
Import Ideal.
Local Open Scope R_scope.

Lemma constructor_keeps_elements_witness :
  exists h',
    SceneService_constructor Example.SOLAR_SYSTEM 0%nat 1%nat Example.bodies = Some h'
    /\ option_Forall2 sameElements (Example.bodies !! 2%nat) (h' !! 2%nat).
Proof.
  eexists. split; [reflexivity|].
  exact (constructor_keeps_elements Example.SOLAR_SYSTEM 0%nat 1%nat
           Example.bodies _ 2%nat eq_refl).
Defined.

Lemma constructor_anomaly_witness :
  exists h' body,
    SceneService_constructor Example.SOLAR_SYSTEM 0%nat 1%nat Example.bodies = Some h'
    /\ h' !! 1%nat = Some body
    /\ trueAnomaly body = meanAnomaly body /\ is_Some (position body).
Proof.
  do 2 eexists. split; [reflexivity|].
  match goal with
  | |- ?h !! _ = Some ?body /\ _ =>
      assert (Hb : h !! 1%nat = Some body) by reflexivity
  end.
  split; [exact Hb|].
  exact (constructor_anomaly Example.SOLAR_SYSTEM 0%nat 1%nat Example.bodies _
           1%nat _ eq_refl ltac:(repeat constructor) Hb ltac:(discriminate)).
Defined.

Lemma constructor_leaves_witness :
  exists h' body',
    SceneService_constructor Example.SOLAR_SYSTEM 0%nat 1%nat Example.bodies = Some h'
    /\ h' !! 0%nat = Some body'
    /\ position body' = position Example.sun
    /\ trueAnomaly body' = trueAnomaly Example.sun.
Proof.
  eexists.
  match goal with
  | |- exists body', SceneService_constructor _ _ _ _ = Some ?h /\ _ =>
      assert (Hc : SceneService_constructor Example.SOLAR_SYSTEM 0%nat 1%nat
                     Example.bodies = Some h) by reflexivity
  end.
  destruct (constructor_leaves Example.SOLAR_SYSTEM 0%nat 1%nat Example.bodies _
              0%nat Example.sun Hc eq_refl (or_intror eq_refl))
    as (body' & Hb & Hp & Ht).
  exists body'. auto.
Defined.

Lemma constructor_lagrangePoints_witness :
  exists h' earth points,
    SceneService_constructor Example.SOLAR_SYSTEM 0%nat 1%nat Example.bodies = Some h'
    /\ h' !! 1%nat = Some earth
    /\ lagrangePoints earth = Some points
    /\ getEarthLagrangePoints 0%nat 1%nat h' = Some points.
Proof.
  eexists.
  match goal with
  | |- exists earth points, SceneService_constructor _ _ _ _ = Some ?h /\ _ =>
      assert (Hc : SceneService_constructor Example.SOLAR_SYSTEM 0%nat 1%nat
                     Example.bodies = Some h) by reflexivity
  end.
  destruct (constructor_lagrangePoints Example.SOLAR_SYSTEM 0%nat 1%nat
              Example.bodies _ Hc) as (earth & points & He & Hl & Hg & _).
  exists earth, points. auto.
Defined.

Lemma constructor_needs_witness :
  exists h',
    SceneService_constructor Example.SOLAR_SYSTEM 0%nat 1%nat Example.bodies = Some h'
    /\ exists p, parentOf Example.bodies 2%nat = Some p
                 /\ is_Some (Example.bodies !! p).
Proof.
  eexists. split; [reflexivity|].
  exact (proj1 (constructor_needs Example.SOLAR_SYSTEM 0%nat 1%nat Example.bodies
                  _ eq_refl) 2%nat ltac:(repeat constructor) eq_refl).
Defined.

Lemma constructor_places_witness :
  exists h' body parent pp,
    SceneService_constructor Example.SOLAR_SYSTEM 0%nat 1%nat Example.bodies = Some h'
    /\ h' !! 2%nat = Some body
    /\ orbitBody body = Some parent
    /\ (h' !! parent) ≫= position = Some pp
    /\ position body
       = Some {| x := getDistanceToFocusPoint body (meanAnomaly body)
                      * cos (meanAnomaly body * PI / 180) / 100000 + x pp;
                 y := - (getDistanceToFocusPoint body (meanAnomaly body)
                         * sin (meanAnomaly body * PI / 180)) / 100000 + y pp |}.
Proof.
  do 2 eexists.
  match goal with
  | |- exists parent pp, SceneService_constructor _ _ _ _ = Some ?h /\ _ =>
      assert (Hc : SceneService_constructor Example.SOLAR_SYSTEM 0%nat 1%nat
                     Example.bodies = Some h) by reflexivity
  end.
  match goal with
  | |- exists parent pp, _ /\ ?h !! _ = Some ?body /\ _ =>
      assert (Hb : h !! 2%nat = Some body) by reflexivity
  end.
  destruct (constructor_places Example.SOLAR_SYSTEM 0%nat 1%nat Example.bodies _
              2%nat _ Hc eq_refl ltac:(repeat constructor) Hb ltac:(discriminate))
    as (parent & pp & Ho & Hpp & Hpos).
  exists parent, pp. auto.
Defined.

End ConstructorExamples.

(** * The dialog's image paths *)

Section ImagePaths.
Context {N : Type}.
Context {BodyType : Type} `{EqDecision BodyType}.
Variables PLANET DWARF_PLANET SATELLITE : BodyType.
Variable type : loc -> BodyType.
Hypothesis satellite_not_planet : SATELLITE <> PLANET /\ SATELLITE <> DWARF_PLANET.

Implicit Types (body : CelestialBody N) (h : gmap loc (CelestialBody N)).

Lemma append_cons (a : Ascii.ascii) (s t : string) :
  String a s +:+ t = String a (s +:+ t).
Proof. reflexivity. Qed.

Lemma append_assoc (s1 s2 s3 : string) : (s1 +:+ s2) +:+ s3 = s1 +:+ (s2 +:+ s3).
Proof.
  induction s1 as [|a s1 IH]; [reflexivity|].
  rewrite !append_cons, IH. reflexivity.
Qed.

Lemma length_append (s1 s2 : string) :
  String.length (s1 +:+ s2) = (String.length s1 + String.length s2)%nat.
Proof.
  induction s1 as [|a s1 IH]; [reflexivity|].
  rewrite append_cons. cbn [String.length]. rewrite IH. reflexivity.
Qed.

Lemma append_same_length (s1 s2 t1 t2 : string) :
  String.length s1 = String.length s2 -> s1 +:+ t1 = s2 +:+ t2 -> s1 = s2.
Proof.
  revert s2. induction s1 as [|a s1 IH]; intros [|c s2] Hl He;
    try discriminate; [reflexivity|].
  rewrite !append_cons in He. cbn [String.length] in Hl.
  injection He as -> He. f_equal. apply (IH s2); [lia | exact He].
Qed.

Lemma getImagePath_planet h (b : loc) body (format : string) :
  h !! b = Some body -> type b = PLANET \/ type b = DWARF_PLANET ->
  getImagePath PLANET DWARF_PLANET SATELLITE type h b format
  = Some ("assets/celestial_bodies/" +:+ id body +:+ "/" +:+ id body +:+ "_small."
          +:+ format).
Proof.
  intros Hb Ht. unfold getImagePath. rewrite Hb. cbn [mbind option_bind].
  rewrite bool_decide_eq_true_2 by exact Ht. cbn [mbind option_bind].
  rewrite !append_assoc. reflexivity.
Qed.

(** X20: the images of two planets, or dwarf planets, never collide: if
    their paths for one format are equal, so are their ids. *)
Theorem getImagePath_planet_inj h (b1 b2 : loc) body1 body2 (format : string) :
  h !! b1 = Some body1 -> h !! b2 = Some body2 ->
  type b1 = PLANET \/ type b1 = DWARF_PLANET ->
  type b2 = PLANET \/ type b2 = DWARF_PLANET ->
  getImagePath PLANET DWARF_PLANET SATELLITE type h b1 format
  = getImagePath PLANET DWARF_PLANET SATELLITE type h b2 format ->
  id body1 = id body2.
Proof.
  intros Hb1 Hb2 Ht1 Ht2.
  rewrite (getImagePath_planet _ _ _ _ Hb1 Ht1), (getImagePath_planet _ _ _ _ Hb2 Ht2).
  intros Heq. apply (inj Some) in Heq. apply (inj (String.app _)) in Heq.
  eapply append_same_length; [|exact Heq].
  apply (f_equal String.length) in Heq. rewrite !length_append in Heq. lia.
Qed.

(** X21: the image of a satellite is kept in the folder of the planet it
    orbits, next to the planet's own image. *)
Theorem getImagePath_satellite h (s p : loc) satellite planet (format : string) :
  h !! s = Some satellite -> h !! p = Some planet ->
  type s = SATELLITE -> orbitBody satellite = Some p ->
  type p = PLANET \/ type p = DWARF_PLANET ->
  let folder := "assets/celestial_bodies/" +:+ id planet +:+ "/" in
  getImagePath PLANET DWARF_PLANET SATELLITE type h s format
  = Some (folder +:+ id satellite +:+ "_small." +:+ format)
  /\ getImagePath PLANET DWARF_PLANET SATELLITE type h p format
     = Some (folder +:+ id planet +:+ "_small." +:+ format).
Proof.
  intros Hs Hp Hts Ho Htp folder. destruct satellite_not_planet as [Hn1 Hn2].
  split.
  - unfold getImagePath. rewrite Hs. cbn [mbind option_bind].
    rewrite bool_decide_eq_false_2 by (rewrite Hts; intros [?|?]; congruence).
    rewrite bool_decide_eq_true_2 by exact Hts.
    rewrite Ho. cbn [mbind option_bind]. rewrite Hp. cbn [mbind option_bind].
    unfold folder. rewrite !append_assoc. reflexivity.
  - rewrite (getImagePath_planet _ _ _ _ Hp Htp). unfold folder.
    rewrite !append_assoc. reflexivity.
Qed.

(** X22: the only body without an image path is a satellite whose orbited
    body is missing: the path of any other existing body is returned, and
    that of such a satellite throws. *)
Theorem getImagePath_fails h (b : loc) body (format : string) :
  h !! b = Some body ->
  (getImagePath PLANET DWARF_PLANET SATELLITE type h b format = None
   <-> type b = SATELLITE /\ orbitBody body ≫= (h !!.) = None).
Proof.
  intros Hb. destruct satellite_not_planet as [Hn1 Hn2].
  unfold getImagePath. rewrite Hb. cbn [mbind option_bind].
  destruct (bool_decide_reflect (type b = PLANET \/ type b = DWARF_PLANET))
    as [Ht|Ht].
  - cbn [mbind option_bind]. split; [discriminate|].
    intros [Hs _]. rewrite Hs in Ht. destruct Ht; congruence.
  - destruct (bool_decide_reflect (type b = SATELLITE)) as [Hs|Hs].
    + destruct (orbitBody body) as [ob|]; cbn [mbind option_bind].
      * destruct (h !! ob) as [o|]; cbn [mbind option_bind].
        -- split; [discriminate|]. intros [_ [=]].
        -- split; auto.
      * split; auto.
    + cbn [mbind option_bind]. split; [discriminate|]. intros [? _]. contradiction.
Qed.

End ImagePaths.

Section ImagePathExamples.
Import Ideal.
Local Existing Instance Example.kind_eq_dec.

Lemma getImagePath_planet_inj_witness :
  id Example.earth = id Example.earth.
Proof.
  exact (getImagePath_planet_inj Example.planet Example.dwarf_planet
           Example.satellite Example.kindOf Example.bodies 1%nat 1%nat _ _ "jpg"
           eq_refl eq_refl (or_introl eq_refl) (or_introl eq_refl) eq_refl).
Defined.

Lemma getImagePath_satellite_witness :
  getImagePath Example.planet Example.dwarf_planet Example.satellite
    Example.kindOf Example.bodies 2%nat "avif"
  = Some "assets/celestial_bodies/earth/moon_small.avif"%string.
Proof.
  assert (Hsat : Example.satellite <> Example.planet
                 /\ Example.satellite <> Example.dwarf_planet)
    by (split; discriminate).
  assert (Ho : orbitBody Example.moon = Some 1%nat) by reflexivity.
  assert (Hk : Example.kindOf 1%nat = Example.planet
               \/ Example.kindOf 1%nat = Example.dwarf_planet)
    by (left; reflexivity).
  pose proof (getImagePath_satellite Example.planet Example.dwarf_planet
                Example.satellite Example.kindOf Hsat
                Example.bodies 2%nat 1%nat Example.moon Example.earth "avif"
                eq_refl eq_refl eq_refl Ho Hk) as [Hs _].
  rewrite Hs. reflexivity.
Defined.

Lemma getImagePath_fails_witness :
  getImagePath Example.planet Example.dwarf_planet Example.satellite
    Example.kindOf Example.dialog 3%nat "jpg" = None.
Proof.
  assert (Hsat : Example.satellite <> Example.planet
                 /\ Example.satellite <> Example.dwarf_planet)
    by (split; discriminate).
  assert (Hb : Example.dialog !! 3%nat = Some Example.lost) by reflexivity.
  pose proof (getImagePath_fails Example.planet Example.dwarf_planet
                Example.satellite Example.kindOf Hsat
                Example.dialog 3%nat Example.lost "jpg" Hb) as [_ Hfail].
  apply Hfail. split; reflexivity.
Defined.

End ImagePathExamples.

(** * From periapsis to apoapsis *)

Section OrbitMonotone.
Import Ideal.
Local Open Scope R_scope.

Implicit Types (body : CelestialBody R).

(** X23: between 0 and 180 degrees the distance to the focus does not
    decrease with the true anomaly: the body moves away from the orbited body
    all the way from periapsis to apoapsis. *)
Theorem getDistanceToFocusPoint_monotone body (t1 t2 : R) :
  0 < semiMajorAxis body -> 0 <= eccentricity body < 1 ->
  0 <= t1 -> t1 <= t2 -> t2 <= 180 ->
  getDistanceToFocusPoint body t1 <= getDistanceToFocusPoint body t2.
Proof.
  intros Ha He H0 H12 H2. pose proof PI_RGT_0 as Hpi.
  assert (Hc : cos (t2 * DEG_TO_RAD) <= cos (t1 * DEG_TO_RAD)).
  { rewrite !DEG_TO_RAD_radians.
    assert (Hk : 0 < PI / 180) by lra.
    assert (Hu : forall t, t * PI / 180 = t * (PI / 180)) by (intros; field).
    assert (Hpi180 : PI = 180 * (PI / 180)) by field.
    rewrite !Hu. generalize dependent (PI / 180). intros k Hk _ Hpi180.
    apply cos_decr_1; rewrite ?Hpi180; nra. }
  pose proof (conic_denominator body t1 He) as Hd1.
  pose proof (conic_denominator body t2 He) as Hd2.
  unfold getDistanceToFocusPoint. ideal. rewrite powerRZ_2.
  set (c1 := cos (t1 * DEG_TO_RAD)) in *. set (c2 := cos (t2 * DEG_TO_RAD)) in *.
  assert (Hnum : 0 < semiMajorAxis body * (1 - eccentricity body ^ 2))
    by (apply Rmult_lt_0_compat; nra).
  unfold Rdiv. apply Rmult_le_compat_l; [lra|].
  apply Rinv_le_contravar; [exact Hd2|]. nra.
Qed.

Lemma getDistanceToFocusPoint_monotone_witness :
  getDistanceToFocusPoint Example.earth 30 <= getDistanceToFocusPoint Example.earth 120.
Proof.
  apply getDistanceToFocusPoint_monotone; simpl; lra.
Defined.

End OrbitMonotone.

(** * Running the constructor again *)

Section ConstructorAgain.
Context {N : Type} {num : JsNumber N}.
Variable SOLAR_SYSTEM : list loc.
Variables SUN EARTH : loc.

Implicit Types (body : CelestialBody N) (h : gmap loc (CelestialBody N)).

Lemma initBody_again h (b : loc) :
  settled h b ->
  (forall body, h !! b = Some body -> trueAnomaly body = meanAnomaly body) ->
  initBody h b = Some h.
Proof.
  intros (body & p & Hb & Hp & Hg) Ht. specialize (Ht body Hb).
  assert (E1 : set_trueAnomaly (meanAnomaly body) body = body).
  { destruct body. cbn in Ht. subst. reflexivity. }
  assert (E2 : set_position p body = body).
  { destruct body. cbn in Hp. subst. reflexivity. }
  unfold initBody. rewrite Hb. cbn [mbind option_bind]. cbv zeta.
  rewrite E1, (insert_id h b body Hb), Hg. cbn [mbind option_bind].
  rewrite E2, (insert_id h b body Hb). reflexivity.
Qed.

Lemma forEach_initBody_again (l : list loc) h :
  (forall b, b ∈ l -> settled h b
     /\ forall body, h !! b = Some body -> trueAnomaly body = meanAnomaly body) ->
  forEach initBody l h = Some h.
Proof.
  induction l as [|b l IH]; intros Hl; [reflexivity|].
  cbn [forEach]. destruct (Hl b) as [Hs Ht]; [apply elem_of_cons; auto|].
  rewrite (initBody_again _ _ Hs Ht). cbn [mbind option_bind].
  apply IH. intros c Hc. apply Hl. apply elem_of_cons. auto.
Qed.

Lemma constructor_notSun h h' (b : loc) :
  SceneService_constructor SOLAR_SYSTEM SUN EARTH h = Some h' ->
  notSun h' b = notSun h b.
Proof.
  intros Hc.
  destruct (constructor_inv _ _ _ _ _ Hc) as (h1 & points & earth & Hf & _ & He & ->).
  pose proof (forEach_initBody_elements _ _ _ b Hf) as Hsame.
  unfold notSun. destruct (decide (b = EARTH)) as [->|Hne].
  - rewrite lookup_insert_eq. rewrite He in Hsame.
    inversion Hsame as [body0 ? Hel Hb0|]; subst.
    destruct Hel as (-> & _). reflexivity.
  - rewrite lookup_insert_ne by congruence.
    destruct Hsame as [body0 body1 Hel|]; [|reflexivity].
    destruct Hel as (-> & _). reflexivity.
Qed.

Lemma constructor_anomaly_listed h h' (b : loc) body :
  SceneService_constructor SOLAR_SYSTEM SUN EARTH h = Some h' ->
  b ∈ List.filter (notSun h) SOLAR_SYSTEM -> h' !! b = Some body ->
  trueAnomaly body = meanAnomaly body.
Proof.
  intros Hc Hl Hb.
  destruct (constructor_inv _ _ _ _ _ Hc) as (h1 & points & earth & Hf & _ & He & ->).
  destruct (forEach_initBody_anomaly _ _ _ b Hf (or_introl Hl))
    as (body1 & Hb1 & Ht & _).
  destruct (decide (b = EARTH)) as [->|Hne].
  - rewrite lookup_insert_eq in Hb. injection Hb as <-.
    rewrite He in Hb1. injection Hb1 as <-. exact Ht.
  - rewrite lookup_insert_ne in Hb by congruence.
    rewrite Hb in Hb1. injection Hb1 as <-. exact Ht.
Qed.

(** X24: running the constructor a second time changes nothing: over a
    catalog in primary-first order, the state it returns is a fixed point. *)
Theorem constructor_idempotent h h' :
  SceneService_constructor SOLAR_SYSTEM SUN EARTH h = Some h' ->
  primaryFirst h (List.filter (notSun h) SOLAR_SYSTEM) = true ->
  SceneService_constructor SOLAR_SYSTEM SUN EARTH h' = Some h'.
Proof.
  intros Hc Hpf.
  assert (Hfilter : List.filter (notSun h') SOLAR_SYSTEM
                    = List.filter (notSun h) SOLAR_SYSTEM).
  { apply filter_ext. intros b. apply (constructor_notSun _ _ _ Hc). }
  assert (Hf' : forEach initBody (List.filter (notSun h') SOLAR_SYSTEM) h' = Some h').
  { rewrite Hfilter. apply forEach_initBody_again. intros b Hb. split.
    - apply (constructor_settled _ _ _ _ _ _ Hc Hpf Hb).
    - intros body Hbody. apply (constructor_anomaly_listed _ _ _ _ Hc Hb Hbody). }
  unfold SceneService_constructor at 1. rewrite Hf'. cbn [mbind option_bind].
  destruct (constructor_inv _ _ _ _ _ Hc) as (h1 & points & earth & Hf & Hg & He & Heq).
  assert (Hg' : getEarthLagrangePoints SUN EARTH h' = Some points).
  { rewrite Heq, (getEarthLagrangePoints_set _ _ _ _ _ He). exact Hg. }
  assert (He' : h' !! EARTH = Some (set_lagrangePoints points earth)).
  { rewrite Heq. apply lookup_insert_eq. }
  rewrite Hg'. cbn [mbind option_bind]. rewrite He'. cbn [mbind option_bind].
  rewrite (insert_id h' EARTH _ He'). reflexivity.
Qed.

End ConstructorAgain.

Section ConstructorAgainExample.
Import Ideal.

Lemma constructor_idempotent_witness :
  exists h',
    SceneService_constructor Example.SOLAR_SYSTEM 0%nat 1%nat Example.bodies = Some h'
    /\ SceneService_constructor Example.SOLAR_SYSTEM 0%nat 1%nat h' = Some h'.
Proof.
  eexists.
  match goal with
  | |- SceneService_constructor _ _ _ _ = Some ?h /\ _ =>
      assert (Hc : SceneService_constructor Example.SOLAR_SYSTEM 0%nat 1%nat
                     Example.bodies = Some h) by reflexivity
  end.
  split; [exact Hc|].
  exact (constructor_idempotent Example.SOLAR_SYSTEM 0%nat 1%nat Example.bodies _
           Hc eq_refl).
Defined.

End ConstructorAgainExample.
